(** * kalerator: the layout-to-topology engine of [kalerator/keyboard.py]

    A shallow embedding of the [Keyboard] class: label translation
    ([translate_label]), footprint selection ([switch_footprint]), the layout
    parser ([parse_json]) and the column synthesizer ([column_scr]).

    Conventions of the embedding.
    - The module is Python 2 code ([range] returns a list that [column_scr]
      pops from, [logging.warn], [u'..'] literals).  Text is a [string]
      (non-ASCII characters of the symbol table are written in UTF-8).
    - The keyboard is a [dict] subclass: its entries are a [gmap] from key
      names to [KeyboardKey] values, next to the instance attributes.
    - Exceptions are values of [exn]; code that can raise returns a [result].
    - What the module imports from files that are not part of it
      ([KeyboardKey], [float_to_str], [translate_board_coords], the [diode]
      table) and the Python built-ins whose behaviour depends on Unicode
      tables ([str.upper], [str.lower], [str.isdigit]) are parameters, bundled
      in type classes; concrete instances are given for the examples. *)

From Stdlib Require Import QArith Ascii.
From stdpp Require Import gmap strings list fin_maps pretty sorting.

Open Scope string_scope.
Open Scope list_scope.

(** ** Python preliminaries *)

Module Py.

(** The exceptions the module can meet.  [NonTermination] is not a Python
    exception: it is what the model of a [while] loop returns when its fuel
    runs out (shown below never to happen). *)
Inductive exn :=
| KeyError (k : string)
| AttributeError (attr : string)
| IndexError
| NonTermination.

Inductive result (A : Type) :=
| Ok (a : A)
| Raise (e : exn).
Arguments Ok {A} a.
Arguments Raise {A} e.

#[global] Instance result_ret : MRet result := λ A a, Ok a.
#[global] Instance result_bind : MBind result := λ A B f r,
  match r with Ok a => f a | Raise e => Raise e end.
#[global] Instance result_fmap : FMap result := λ A B f r,
  match r with Ok a => Ok (f a) | Raise e => Raise e end.

Definition is_Ok {A} (r : result A) : Prop :=
  match r with Ok _ => True | Raise _ => False end.

(** [l.pop(0)] and [l.pop(-1)]: the removed element and what is left of the
    list; [None] stands for the [IndexError] of popping from an empty list. *)
Definition pop_first {A} (l : list A) : option (A * list A) :=
  match l with
  | [] => None
  | x :: l' => Some (x, l')
  end.

Fixpoint pop_last {A} (l : list A) : option (A * list A) :=
  match l with
  | [] => None
  | [x] => Some (x, [])
  | x :: l' => prod_map id (cons x) <$> pop_last l'
  end.

(** [sep.join(l)] *)
Fixpoint join (sep : string) (l : list string) : string :=
  match l with
  | [] => ""
  | [s] => s
  | s :: l' => s +:+ sep +:+ join sep l'
  end.

(** [s.split('\n', 1)[0]]: the text before the first line feed. *)
Definition LF : ascii := "010"%char.

Fixpoint first_line (s : string) : string :=
  match s with
  | EmptyString => EmptyString
  | String c s' => if decide (c = LF) then EmptyString else String c (first_line s')
  end.

(** [pat in s] for strings: [pat] occurs in [s]. *)
Fixpoint contains (pat s : string) : bool :=
  String.prefix pat s ||
  match s with
  | EmptyString => false
  | String _ s' => contains pat s'
  end.

(** The behaviour of [upper], [lower] and [isdigit] on ASCII characters. *)
Definition ascii_upper (c : ascii) : ascii :=
  let n := nat_of_ascii c in
  if (97 <=? n)%nat && (n <=? 122)%nat then ascii_of_nat (n - 32) else c.

Definition ascii_lower (c : ascii) : ascii :=
  let n := nat_of_ascii c in
  if (65 <=? n)%nat && (n <=? 90)%nat then ascii_of_nat (n + 32) else c.

Definition ascii_isdigit (c : ascii) : bool :=
  let n := nat_of_ascii c in (48 <=? n)%nat && (n <=? 57)%nat.

Fixpoint map_string (f : ascii → ascii) (s : string) : string :=
  match s with
  | EmptyString => EmptyString
  | String c s' => String (f c) (map_string f s')
  end.

Fixpoint all_chars (f : ascii → bool) (s : string) : bool :=
  match s with
  | EmptyString => true
  | String c s' => f c && all_chars f s'
  end.

Definition is_ascii (c : ascii) : bool := (nat_of_ascii c <? 128)%nat.

(** [s.isdigit()] for a text of ASCII characters: not empty, digits only. *)
Definition digits_only (s : string) : bool :=
  negb (String.eqb s "") && all_chars ascii_isdigit s.

(** The string methods whose result depends on Python's character tables
    are parameters.  What is used of them: on ASCII text, [isdigit] is
    [digits_only]. *)
Class PyText := {
  upper : string → string;
  lower : string → string;
  isdigit : string → bool;
  isdigit_ascii : ∀ s, all_chars is_ascii s = true → isdigit s = digits_only s }.

(** The methods of byte strings: they act on ASCII letters and digits and
    leave every other byte alone. *)
Definition byte_text : PyText := {|
  upper := map_string ascii_upper;
  lower := map_string ascii_lower;
  isdigit := digits_only;
  isdigit_ascii := λ _ _, eq_refl |}.

End Py.
Import Py.

(** ** The symbol table (lines 10-42) *)

Definition DQUOTE : string := String "034"%char EmptyString.

Definition key_translation : gmap string string :=
  list_to_map [
    ("", "SPACE");
    ("←", "LEFT");
    ("↑", "UP");
    ("→", "RIGHT");
    ("↓", "DOWN");
    ("~", "GRAVE");
    ("¬", "GRAVE");
    ("!", "1");
    ("@", "2");
    ("#", "3");
    ("£", "3");
    ("$", "4");
    ("%", "5");
    ("^", "6");
    ("&", "7");
    ("*", "8");
    ("(", "9");
    (")", "0");
    ("_", "DASH");
    ("+", "EQUAL");
    ("{", "LBRACKET");
    ("}", "RBRACKET");
    ("|", "BACKSLASH");
    (":", "SEMICOLON");
    (DQUOTE, "QUOTE");
    ("<", "COMMA");
    (">", "PERIOD");
    ("?", "SLASH");
    ("/", "KP_SLASH");
    ("-", "KP_DASH");
    (".", "KP_DEL")
  ].

(** ** Data model *)

(** One key record of the decoded layout: the dict [KLE2xy] yields for a key,
    with the entries [parse_json] reads. *)
Record KleKey := {
  kle_name : string;      (* key['name'] *)
  kle_width : Q;          (* key['width'] *)
  kle_column : Z;         (* key['column'] *)
  kle_row : Z;            (* key['row'] *)
  kle_x : Q;              (* key['x'] *)
  kle_y : Q               (* key['y'] *)
}.

(** [self.default_next_key] *)
Record NextKey := { nk_y : Z; nk_w : Z; nk_h : Z }.

Definition default_next_key : NextKey := {| nk_y := 0; nk_w := 1; nk_h := 1 |}.

(** A [KeyboardKey] as [parse_json] constructs it: the class is defined in
    [keyboard_key.py]; the value records the constructor's arguments.  The
    previous key [last_key] is a reference to an entry of the keyboard and is
    recorded by that entry's name. *)
Record KeyboardKey := {
  kk_name : string;
  kk_last_key : option string;
  kk_next_key : NextKey;
  kk_eagle_version : string;
  kk_switch_footprint : string;
  kk_diode : string;
  kk_coord : Z * Z;
  kk_coord_mm : Q * Q;
  kk_smd_led : option string
}.

(** The lazily filled script attributes start as the empty list [[]] and are
    later assigned a string. *)
Inductive cache :=
| Unset
| Script (s : string).

(** Python truth value of such an attribute: [[]] and [''] are false. *)
Definition cache_truthy (c : cache) : bool :=
  match c with
  | Unset => false
  | Script s => negb (String.eqb s "")
  end.

(** The [Keyboard] instance: the entries of the dict itself ([items]) and the
    attributes the engine uses. *)
Record Keyboard := {
  items : gmap string KeyboardKey;
  layout : list (list KleKey);
  eagle_version : string;
  _switch_footprint : string;
  diode_type : string;
  smd_led : option string;
  rows : list (list string);
  max_col : nat;
  _column_board_scr : cache;
  _column_schematic_scr : cache
}.

(** [key in self] *)
Definition has_key (self : Keyboard) (key : string) : bool :=
  bool_decide (is_Some (items self !! key)).

(** ** Label translation (lines 121-143) *)

Section Translate.
Context {text : PyText}.

(** Lines 124-129: the name before collision resolution. *)
Definition candidate_name (label : string) : string :=
  let key_name := upper (first_line label) in
  let key_name := if decide (label = "*") then "KP_ASTERISK" else key_name in
  match key_translation !! key_name with
  | Some translated => translated
  | None => key_name
  end.

(** Lines 137-139: [while new_key_name in self: ...].  [fuel] bounds the
    number of iterations. *)
Fixpoint rename_loop (fuel : nat) (self : Keyboard)
    (key_name new_key_name : string) (i : nat) : result string :=
  if has_key self new_key_name then
    match fuel with
    | O => Raise NonTermination
    | S fuel' => rename_loop fuel' self key_name (key_name +:+ pretty i) (S i)
    end
  else Ok new_key_name.

(** Line 140: the message handed to [logging.warn]. *)
Definition duplicate_warning (key_name new_key_name : string) : string :=
  "Duplicate key " +:+ key_name +:+ "! Renaming to " +:+ new_key_name +:+ "!".

(** [translate_label]: the name, and the warnings logged on the way. *)
Definition translate_label (self : Keyboard) (label : string)
    : result (string * list string) :=
  let key_name := candidate_name label in
  if has_key self key_name then
    let i := 2%nat in
    let '(key_name, new_key_name) :=
      if isdigit key_name
      then ("KP_" +:+ key_name, "KP_" +:+ key_name)
      else (key_name, key_name +:+ pretty i) in
    new_key_name ← rename_loop (S (size (items self))) self key_name new_key_name i;
    Ok (new_key_name, [duplicate_warning key_name new_key_name])
  else Ok (key_name, []).

End Translate.

(** ** Footprint selection (lines 263-284) *)

(** [key_width in [w1, w2, ...]]: membership by numeric equality.  A width is
    an [int] or a finite [float]; both are rationals, and the listed widths
    are exactly representable, so [==] is equality of rationals. *)
Definition width_in (key_width : Q) (widths : list Q) : bool :=
  existsb (Qeq_bool key_width) widths.

Definition switch_footprint (self : Keyboard) (key_width : Q) : string :=
  let footprint :=
    if width_in key_width [2; 2.25; 2.75]%Q then _switch_footprint self +:+ "-2U"
    else if width_in key_width [4]%Q then _switch_footprint self +:+ "-2U"
    else if width_in key_width [6.25]%Q then _switch_footprint self +:+ "-6.25U"
    else if width_in key_width [6.5]%Q then _switch_footprint self +:+ "-6.5U"
    else if width_in key_width [7]%Q then _switch_footprint self +:+ "-7U"
    else _switch_footprint self +:+ "-1U" in
  if contains "-LED-" footprint then footprint +:+ "-LED"
  else if contains "-RGBLED-" footprint then footprint +:+ "-RGB"
  else footprint.

(** ** The layout parser (lines 286-311) *)

(** Attribute and entry updates of the keyboard. *)
Definition set_item (key_name : string) (key : KeyboardKey) (self : Keyboard) : Keyboard :=
  {| items := <[key_name := key]> (items self);
     layout := layout self; eagle_version := eagle_version self;
     _switch_footprint := _switch_footprint self; diode_type := diode_type self;
     smd_led := smd_led self; rows := rows self; max_col := max_col self;
     _column_board_scr := _column_board_scr self;
     _column_schematic_scr := _column_schematic_scr self |}.

Definition set_rows (new_rows : list (list string)) (self : Keyboard) : Keyboard :=
  {| items := items self;
     layout := layout self; eagle_version := eagle_version self;
     _switch_footprint := _switch_footprint self; diode_type := diode_type self;
     smd_led := smd_led self; rows := new_rows; max_col := max_col self;
     _column_board_scr := _column_board_scr self;
     _column_schematic_scr := _column_schematic_scr self |}.

Definition set_max_col (n : nat) (self : Keyboard) : Keyboard :=
  {| items := items self;
     layout := layout self; eagle_version := eagle_version self;
     _switch_footprint := _switch_footprint self; diode_type := diode_type self;
     smd_led := smd_led self; rows := rows self; max_col := n;
     _column_board_scr := _column_board_scr self;
     _column_schematic_scr := _column_schematic_scr self |}.

Definition set_column_scr (schematic board : string) (self : Keyboard) : Keyboard :=
  {| items := items self;
     layout := layout self; eagle_version := eagle_version self;
     _switch_footprint := _switch_footprint self; diode_type := diode_type self;
     smd_led := smd_led self; rows := rows self; max_col := max_col self;
     _column_board_scr := Script board;
     _column_schematic_scr := Script schematic |}.

(** [rows[-1].append(key_name)] *)
Definition append_to_last_row (rows : list (list string)) (key_name : string)
    : result (list (list string)) :=
  match pop_last rows with
  | None => Raise IndexError
  | Some (row, rows') => Ok (rows' ++ [row ++ [key_name]])
  end.

(** A [for] loop whose body can raise. *)
Fixpoint for_each {A S} (body : S → A → result S) (s : S) (l : list A) : result S :=
  match l with
  | [] => Ok s
  | a :: l' => s' ← body s a; for_each body s' l'
  end.

(** The state engine of [parse_json]: the keyboard being filled, the loop
    variables, and the warnings logged so far. *)
Record ParseState := {
  ps_self : Keyboard;
  ps_last_key : option string;
  ps_next_key : NextKey;
  ps_col_num : nat;
  ps_log : list string
}.

Section Parse.
Context {text : PyText}.

(** Lines 297-310: the body of [for key in row]. *)
Definition parse_key (st : ParseState) (key : KleKey) : result ParseState :=
  let self := ps_self st in
  '(key_name, warnings) ← translate_label self (kle_name key);
  let footprint := switch_footprint self (kle_width key) in
  let coord := (kle_column key, kle_row key) in
  let coord_mm := (kle_x key, kle_y key) in
  let last_key :=
    {| kk_name := key_name; kk_last_key := ps_last_key st;
       kk_next_key := ps_next_key st; kk_eagle_version := eagle_version self;
       kk_switch_footprint := footprint; kk_diode := diode_type self;
       kk_coord := coord; kk_coord_mm := coord_mm; kk_smd_led := smd_led self |} in
  let self := set_item key_name last_key self in
  new_rows ← append_to_last_row (rows self) key_name;
  let self := set_rows new_rows self in
  let next_key := default_next_key in
  (* Store this column count if it's the highest we've seen *)
  let col_num := ps_col_num st in
  let self := if (max_col self <? col_num)%nat then set_max_col col_num self else self in
  let col_num := 0%nat in
  Ok {| ps_self := self; ps_last_key := Some key_name; ps_next_key := next_key;
        ps_col_num := col_num; ps_log := ps_log st ++ warnings |}.

(** Lines 295-310: the body of [for row in self.layout]. *)
Definition parse_row (st : ParseState) (row : list KleKey) : result ParseState :=
  let self := set_rows (rows (ps_self st) ++ [[]]) (ps_self st) in
  for_each parse_key
    {| ps_self := self; ps_last_key := ps_last_key st; ps_next_key := ps_next_key st;
       ps_col_num := ps_col_num st; ps_log := ps_log st |}
    row.

Definition parse_json (self : Keyboard) : result (Keyboard * list string) :=
  let last_key := None in
  let next_key := default_next_key in
  let col_num := 0%nat in
  st ← for_each parse_row
         {| ps_self := self; ps_last_key := last_key; ps_next_key := next_key;
            ps_col_num := col_num; ps_log := [] |}
         (layout self);
  Ok (ps_self st, ps_log st).

(** ** Construction (lines 46-88) *)

(** [config.diode], the table of diode types. *)
Class Config := { diode : gmap string string }.

(** [Keyboard(rawdata, eagle_version, switch_footprint, diode_type, smd_led)].
    The first argument of the model is the decoded layout, the grid
    [KLE2xy(rawdata[1:-1])] yields; the decoder is a library of its own.
    The result is the keyboard and the warnings logged while parsing. *)
Definition __init__ {config : Config} (decoded : list (list KleKey))
    (eagle_version switch_footprint diode_type smd_led : string)
    : result (Keyboard * list string) :=
  diode_type ← match diode !! diode_type with
               | Some d => Ok d
               | None => Raise (KeyError diode_type)
               end;
  let smd_led :=
    if String.eqb (lower smd_led) "no" then None else Some (lower smd_led) in
  parse_json
    {| items := ∅; layout := decoded; eagle_version := eagle_version;
       _switch_footprint := switch_footprint; diode_type := diode_type;
       smd_led := smd_led; rows := []; max_col := 0;
       _column_board_scr := Unset; _column_schematic_scr := Unset |}.

End Parse.

(** ** Column synthesis (lines 178-256) *)

(** The net statements are first formatted with the coordinates and keep a
    placeholder [%(column)s] for the column number, which a second [%]
    fills in.  A text with placeholders is a list of pieces.  (The strings
    [float_to_str] returns are taken to contain no [%].) *)
Inductive piece :=
| Text (s : string)
| ColumnLabel.

Abbreviation template := (list piece).

Definition NL : string := String LF EmptyString.

(** [t % {'column': column}] *)
Fixpoint substitute (column : nat) (t : template) : string :=
  match t with
  | [] => ""
  | Text s :: t' => s +:+ substitute column t'
  | ColumnLabel :: t' => pretty column +:+ substitute column t'
  end.

(** [sep.join(l)] for texts with placeholders. *)
Fixpoint join_templates (sep : string) (l : list template) : template :=
  match l with
  | [] => []
  | [t] => t
  | t :: l' => t ++ Text sep :: join_templates sep l'
  end.

(** Python's [float] as far as [column_scr] uses it: subtraction, addition
    and the literals [0.5] and [0.75]. *)
Class PyFloat (F : Type) := {
  float_sub : F → F → F;
  float_add : F → F → F;
  float_0_5 : F;
  float_0_75 : F }.

(** What the module imports from [functions.py]. *)
Class Functions (F : Type) := {
  float_to_str : F → string;
  translate_board_coords : string → string }.

(** What [column_scr] asks of an element [key] of a row: its truth value
    ([if last_key:]) and its attribute [key.column_pin_scr], a pair of floats
    (or an [AttributeError] when the element has no such attribute). *)
Class RowItem (K F : Type) := {
  truthy : K → bool;
  column_pin_scr : K → result (F * F) }.

(** The elements [parse_json] puts into [self.rows] are key names: strings,
    which are true when not empty and have no attribute [column_pin_scr]. *)
#[global] Instance str_item F : RowItem string F := {|
  truthy s := negb (String.eqb s "");
  column_pin_scr _ := Raise (AttributeError "column_pin_scr") |}.

Section ColumnScr.
Context {K F : Type} {float : PyFloat F} {functions : Functions F} {item : RowItem K F}.

(** ['NET COLUMN%%(column)s (%s %s) (%s %s);' % (x1, y1, x2, y2)] *)
Definition net (x1 y1 x2 y2 : F) (ending : string) : template :=
  [Text "NET COLUMN"; ColumnLabel;
   Text (" (" +:+ float_to_str x1 +:+ " " +:+ float_to_str y1 +:+ ") ("
         +:+ float_to_str x2 +:+ " " +:+ float_to_str y2 +:+ ");" +:+ ending)].

(** Lines 215-236: the three NETs connecting the key above with this key. *)
Definition net_triplet (last_key key : K) : result template :=
  last_pin ← column_pin_scr last_key;
  let top_pin_offset := float_sub last_pin.2 float_0_5 in
  key_pin ← column_pin_scr key;
  let bot_pin_offset := float_add key_pin.2 float_0_75 in
  Ok (net last_pin.1 last_pin.2 last_pin.1 top_pin_offset NL
      ++ net last_pin.1 top_pin_offset key_pin.1 bot_pin_offset NL
      ++ net key_pin.1 bot_pin_offset key_pin.1 key_pin.2 "").

(** The variables of the synthesis loops. *)
Record ColumnState := {
  cs_key : option K;
  cs_last_key : option K;
  cs_row_position : option nat;
  cs_row_positions : list nat;
  cs_schematic_columns : gmap nat (list template);
  cs_board_columns : gmap nat (list template)
}.

(** Truth value of [row_position]: [None] and [0] are false. *)
Definition position_truthy (p : option nat) : bool :=
  match p with
  | Some (S _) => true
  | _ => false
  end.

(** [l.pop(0)] on even traversal indices, [l.pop(-1)] on odd ones. *)
Definition pop_side {A} (column : nat) (l : list A) : option (A * list A) :=
  if Nat.even column then pop_first l else pop_last l.

(** Lines 194-239: the body of [for row in rows], which also pops from
    [row]; the second component is the row afterwards. *)
Definition column_row (column : nat) (st : ColumnState) (row : list K)
    : result (ColumnState * list K) :=
  match pop_side column row with
  | None =>
      (* except IndexError: last_key = key; continue *)
      Ok ({| cs_key := cs_key st; cs_last_key := cs_key st;
             cs_row_position := cs_row_position st;
             cs_row_positions := cs_row_positions st;
             cs_schematic_columns := cs_schematic_columns st;
             cs_board_columns := cs_board_columns st |}, row)
  | Some (key, row') =>
      let claimed :=
        if position_truthy (cs_row_position st)
        then Some (default 0%nat (cs_row_position st), cs_row_positions st)
        else pop_side column (cs_row_positions st) in
      match claimed with
      | None =>
          (* row_positions.pop raised IndexError, after key was bound *)
          Ok ({| cs_key := Some key; cs_last_key := Some key;
                 cs_row_position := cs_row_position st;
                 cs_row_positions := cs_row_positions st;
                 cs_schematic_columns := cs_schematic_columns st;
                 cs_board_columns := cs_board_columns st |}, row')
      | Some (row_position, row_positions) =>
          let '(schematic_columns, board_columns) :=
            match cs_schematic_columns st !! row_position with
            | None => (<[row_position := []]> (cs_schematic_columns st),
                       <[row_position := []]> (cs_board_columns st))
            | Some _ => (cs_schematic_columns st, cs_board_columns st)
            end in
          schematic_columns ←
            match cs_last_key st with
            | Some last_key =>
                if truthy last_key then
                  nets ← net_triplet last_key key;
                  Ok (alter (λ l, l ++ [nets]) row_position schematic_columns)
                else Ok schematic_columns
            | None => Ok schematic_columns
            end;
          Ok ({| cs_key := Some key; cs_last_key := Some key;
                 cs_row_position := Some row_position;
                 cs_row_positions := row_positions;
                 cs_schematic_columns := schematic_columns;
                 cs_board_columns := board_columns |}, row')
      end
  end.

(** Lines 193-239: [for row in rows]. *)
Fixpoint column_rows (column : nat) (st : ColumnState) (rows : list (list K))
    : result (ColumnState * list (list K)) :=
  match rows with
  | [] => Ok (st, [])
  | row :: rows' =>
      '(st, row) ← column_row column st row;
      '(st, rows') ← column_rows column st rows';
      Ok (st, row :: rows')
  end.

(** Lines 190-239: the body of [for column in range(1, self.max_col + 1)]. *)
Definition column_pass (acc : ColumnState * list (list K)) (column : nat)
    : result (ColumnState * list (list K)) :=
  let '(st, rows) := acc in
  column_rows column
    {| cs_key := None; cs_last_key := None; cs_row_position := None;
       cs_row_positions := cs_row_positions st;
       cs_schematic_columns := cs_schematic_columns st;
       cs_board_columns := cs_board_columns st |}
    rows.

(** Lines 181-239: the traversal, from a copy of the rows. *)
Definition traverse (rows : list (list K)) (max_col : nat)
    : result (ColumnState * list (list K)) :=
  for_each column_pass
    ({| cs_key := None; cs_last_key := None; cs_row_position := None;
        cs_row_positions := seq 1 max_col;
        cs_schematic_columns := ∅; cs_board_columns := ∅ |}, rows)
    (seq 1 max_col).

(** [sorted(schematic_columns)]: the slot numbers in ascending order. *)
Definition sorted_columns (columns : gmap nat (list template)) : list nat :=
  merge_sort (≤)%nat (elements (dom columns)).

(** [columns[column]] *)
Definition getitem (columns : gmap nat (list template)) (column : nat)
    : result (list template) :=
  match columns !! column with
  | Some l => Ok l
  | None => Raise (KeyError (pretty column))
  end.

(** Lines 245-249: the body of [for column in sorted(schematic_columns)]. *)
Definition renumber (schematic_columns board_columns : gmap nat (list template))
    (acc : list string * list string) (column : nat)
    : result (list string * list string) :=
  let '(schematic, board) := acc in
  s ← getitem schematic_columns column;
  b ← getitem board_columns column;
  Ok (schematic ++ [substitute column (join_templates NL s)],
      board ++ [substitute column (join_templates NL b)]).

(** [column_scr] on the attributes it reads: the values it assigns to
    [_column_schematic_scr] and [_column_board_scr]. *)
Definition column_scr_of (rows : list (list K)) (max_col : nat) (eagle_version : string)
    : result (string * string) :=
  '(st, _) ← traverse rows max_col;
  '(schematic, board) ←
    for_each (renumber (cs_schematic_columns st) (cs_board_columns st))
      ([], []) (sorted_columns (cs_schematic_columns st));
  let column_schematic_scr := join NL schematic in
  let column_board_scr := join NL board in
  let column_board_scr :=
    if String.eqb eagle_version "free"
    then translate_board_coords column_board_scr
    else column_board_scr in
  Ok (column_schematic_scr, column_board_scr).

End ColumnScr.

(** The methods of the keyboard. *)
Section Methods.
Context {F : Type} {float : PyFloat F} {functions : Functions F}.

Definition column_scr (self : Keyboard) : result Keyboard :=
  '(schematic, board) ← column_scr_of (rows self) (max_col self) (eagle_version self);
  Ok (set_column_scr schematic board self).

(** The properties [column_schematic_scr] and [column_board_scr]
    (lines 164-176): the value returned and the keyboard afterwards. *)
Definition column_schematic_scr (self : Keyboard) : result (cache * Keyboard) :=
  self ← (if cache_truthy (_column_schematic_scr self) then Ok self else column_scr self);
  Ok (_column_schematic_scr self, self).

Definition column_board_scr (self : Keyboard) : result (cache * Keyboard) :=
  self ← (if cache_truthy (_column_board_scr self) then Ok self else column_scr self);
  Ok (_column_board_scr self, self).

End Methods.

(** ** Iteration and the script properties (lines 90-119, 145-162, 258-261) *)

(** [self[name]] *)
Definition getkey (self : Keyboard) (name : string) : result KeyboardKey :=
  match items self !! name with
  | Some key => Ok key
  | None => Raise (KeyError name)
  end.

(** A comprehension whose element expression can raise. *)
Fixpoint map_result {A B} (f : A → result B) (l : list A) : result (list B) :=
  match l with
  | [] => Ok []
  | a :: l' => b ← f a; bs ← map_result f l'; Ok (b :: bs)
  end.

(** [__iter__]: the keys a loop over the keyboard receives, row by row. *)
Definition __iter__ (self : Keyboard) : result (list KeyboardKey) :=
  map_result (getkey self) (concat (rows self)).

(** The script fragments of a key, [key.board_scr] and [key.schematic_scr],
    are computed in [keyboard_key.py] from the key and the keys it refers
    to, which are entries of the keyboard. *)
Class KeyScripts := {
  key_board_script : gmap string KeyboardKey → KeyboardKey → string;
  key_schematic_script : gmap string KeyboardKey → KeyboardKey → string }.

(** The keyboard with the script attributes of lines 63-68 that the
    synthesis does not touch.  [_key_schematic_scr] stays a list. *)
Record Scripts := {
  keyboard : Keyboard;
  _board_scr : cache;
  _key_board_scr : cache;
  _key_schematic_scr : list string;
  _schematic_scr : cache
}.

(** The attributes as [__init__] sets them. *)
Definition new_scripts (self : Keyboard) : Scripts :=
  {| keyboard := self; _board_scr := Unset; _key_board_scr := Unset;
     _key_schematic_scr := []; _schematic_scr := Unset |}.

(** Lines 69-81. *)
Definition schematic_preamble : string :=
  join NL ["GRID ON;"; "GRID IN 0.1 1;"; "GRID ALT IN 0.01;"; "SET WIRE_BEND 2;"; ""; ""].

Definition schematic_footer : string := NL +:+ NL +:+ "WINDOW FIT;".

Definition board_preamble : string :=
  join NL ["GRID ON;"; "GRID MM 1 10;"; "GRID ALT MM .1;"; ""; ""].

Definition board_footer : string := NL +:+ NL +:+ "RATSNEST;" +:+ NL +:+ "WINDOW FIT;".

(** The text of a script attribute that holds a string. *)
Definition script_text (c : cache) : string :=
  match c with
  | Script s => s
  | Unset => ""
  end.

Section ScriptProperties.
Context {scripts : KeyScripts}.
Context {F : Type} {float : PyFloat F} {functions : Functions F}.

(** Lines 145-152. *)
Definition key_board_scr (self : Scripts) : result (string * Scripts) :=
  self ←
    (if cache_truthy (_key_board_scr self) then Ok self
     else
       keys ← __iter__ (keyboard self);
       Ok {| keyboard := keyboard self; _board_scr := _board_scr self;
             _key_board_scr :=
               Script (join NL (key_board_script (items (keyboard self)) <$> keys));
             _key_schematic_scr := _key_schematic_scr self;
             _schematic_scr := _schematic_scr self |});
  Ok (script_text (_key_board_scr self), self).

(** Lines 154-162: the fragments are appended to the list when it is empty,
    and the list is joined at every access. *)
Definition key_schematic_scr (self : Scripts) : result (string * Scripts) :=
  self ←
    (match _key_schematic_scr self with
     | _ :: _ => Ok self
     | [] =>
         keys ← __iter__ (keyboard self);
         Ok {| keyboard := keyboard self; _board_scr := _board_scr self;
               _key_board_scr := _key_board_scr self;
               _key_schematic_scr :=
                 key_schematic_script (items (keyboard self)) <$> keys;
               _schematic_scr := _schematic_scr self |}
     end);
  Ok (join NL (_key_schematic_scr self), self).

(** The column properties, on the keyboard inside. *)
Definition with_keyboard (self : Scripts) (kb : Keyboard) : Scripts :=
  {| keyboard := kb; _board_scr := _board_scr self;
     _key_board_scr := _key_board_scr self;
     _key_schematic_scr := _key_schematic_scr self;
     _schematic_scr := _schematic_scr self |}.

(** Lines 97-107. *)
Definition board_scr (self : Scripts) : result (string * Scripts) :=
  self ←
    (if cache_truthy (_board_scr self) then Ok self
     else
       '(keys, self) ← key_board_scr self;
       '(columns, kb) ← column_board_scr (keyboard self);
       let self := with_keyboard self kb in
       Ok {| keyboard := keyboard self;
             _board_scr :=
               Script (join NL [board_preamble; keys; script_text columns; board_footer]);
             _key_board_scr := _key_board_scr self;
             _key_schematic_scr := _key_schematic_scr self;
             _schematic_scr := _schematic_scr self |});
  Ok (script_text (_board_scr self), self).

(** Lines 109-119. *)
Definition schematic_scr (self : Scripts) : result (string * Scripts) :=
  self ←
    (if cache_truthy (_schematic_scr self) then Ok self
     else
       '(keys, self) ← key_schematic_scr self;
       '(columns, kb) ← column_schematic_scr (keyboard self);
       let self := with_keyboard self kb in
       Ok {| keyboard := keyboard self; _board_scr := _board_scr self;
             _key_board_scr := _key_board_scr self;
             _key_schematic_scr := _key_schematic_scr self;
             _schematic_scr :=
               Script (join NL [schematic_preamble; keys; script_text columns;
                                schematic_footer]) |});
  Ok (script_text (_schematic_scr self), self).

(** Lines 258-261. *)
Definition generate (self : Scripts) : result ((string * string) * Scripts) :=
  '(schematic, self) ← schematic_scr self;
  '(board, self) ← board_scr self;
  Ok ((schematic, board), self).

End ScriptProperties.

(** ** Vocabulary of the properties *)

(** [first_free self base j]: [j] is the first suffix from 2 on for which
    [base + str(j)] is not a key of the keyboard. *)
Definition first_free_from (self : Keyboard) (base : string) (i j : nat) : Prop :=
  (i ≤ j)%nat ∧ has_key self (base +:+ pretty j) = false ∧
  ∀ j', (i ≤ j' < j)%nat → has_key self (base +:+ pretty j') = true.

Abbreviation first_free self base j := (first_free_from self base 2 j).

(** What parsing keeps true of the keyboard: the names in the rows are
    pairwise different, they are exactly the keys of the dict, and each
    entry is the key of that name. *)
Definition names_unique (self : Keyboard) : Prop :=
  NoDup (concat (rows self)) ∧
  (∀ name, name ∈ concat (rows self) ↔ is_Some (items self !! name)) ∧
  (∀ name key, items self !! name = Some key → kk_name key = name).

(** The attributes parsing leaves as they are. *)
Definition same_settings (self self' : Keyboard) : Prop :=
  max_col self' = max_col self ∧
  layout self' = layout self ∧
  eagle_version self' = eagle_version self ∧
  _switch_footprint self' = _switch_footprint self ∧
  diode_type self' = diode_type self ∧
  smd_led self' = smd_led self ∧
  _column_board_scr self' = _column_board_scr self ∧
  _column_schematic_scr self' = _column_schematic_scr self.

(** The length of the longest row. *)
Definition longest_row (rows : list (list string)) : nat :=
  max_list (length <$> rows).

(** The bucket table of the footprint selector, as the specification lists
    it: exact widths, and the default. *)
Definition footprint_table : list (Q * string) :=
  [(2, "2U"); (2.25, "2U"); (2.75, "2U"); (4, "2U");
   (6.25, "6.25U"); (6.5, "6.5U"); (7, "7U")]%Q.

Fixpoint lookup_bucket (table : list (Q * string)) (key_width : Q) : string :=
  match table with
  | [] => "1U"
  | (width, bucket) :: table' =>
      if Qeq_bool key_width width then bucket else lookup_bucket table' key_width
  end.

(** The LED marker of a footprint name (lines 279-282). *)
Definition led_variant (footprint : string) : string :=
  if contains "-LED-" footprint then footprint +:+ "-LED"
  else if contains "-RGBLED-" footprint then footprint +:+ "-RGB"
  else footprint.

Section ColumnVocabulary.
Context {K F : Type} {float : PyFloat F} {functions : Functions F} {item : RowItem K F}.

(** A row element [column_scr] can wire: it is true, and it has a column pin. *)
Definition wired (key : K) : Prop :=
  truthy key = true ∧ is_Ok (column_pin_scr key).

(** The keys of a slot can be linked: a single key needs no link, and two
    or more keys have to be wired. *)
Definition wirable (keys : list K) : Prop :=
  (2 ≤ length keys)%nat → Forall wired keys.

(** The keys one traversal index takes, one from each row that still has
    keys, and the rows it leaves. *)
Definition taken (column : nat) (rows : list (list K)) : list K :=
  omap (λ row, fst <$> pop_side column row) rows.

Definition remaining (column : nat) (rows : list (list K)) : list (list K) :=
  (λ row, from_option snd row (pop_side column row)) <$> rows.

(** The slots of a traversal, in the order they are claimed, each with the
    keys assigned to it: a traversal index that takes keys claims the next
    slot from its end of the pool. *)
Fixpoint slot_assignment (columns row_positions : list nat) (rows : list (list K))
    : list (nat * list K) :=
  match columns with
  | [] => []
  | column :: columns' =>
      match taken column rows, pop_side column row_positions with
      | (_ :: _) as keys, Some (slot, row_positions') =>
          (slot, keys) :: slot_assignment columns' row_positions' (remaining column rows)
      | _, _ => slot_assignment columns' row_positions (remaining column rows)
      end
  end.

(** The NET statements in the entries of a slot: each starts with the
    keyword piece. *)
Definition is_net (p : piece) : bool :=
  match p with
  | Text s => String.eqb s "NET COLUMN"
  | ColumnLabel => false
  end.

Definition net_statements (entries : list template) : nat :=
  length (List.filter is_net (concat entries)).

(** The links of a slot: the keys assigned to it, each paired with the key
    assigned next, and the entries that wire these pairs. *)
Definition chain (keys : list K) : list (K * K) := zip keys (tail keys).

Definition links (entries : list template) (keys : list K) : Prop :=
  Forall2 (λ entry pair, net_triplet pair.1 pair.2 = Ok entry) entries (chain keys).

(** What [column_scr] needs of the rows to wire every slot: the keys of each
    slot of its traversal can be linked.  (Rows in which every key is wired
    qualify, and so do rows that give no slot a second key.) *)
Definition slots_wirable (rows : list (list K)) (max_col : nat) : Prop :=
  Forall (λ assigned, wirable assigned.2)
    (slot_assignment (seq 1 max_col) (seq 1 max_col) rows).

(** The script of a column: its entries, each with the slot number filled
    in, one per line. *)
Definition column_group (columns : gmap nat (list template)) (slot : nat) : string :=
  join NL (substitute slot <$> columns !!! slot).

End ColumnVocabulary.

(** The key [parse_json] constructs for a record (lines 298-303), and the
    state after the record (lines 301-310, the column counter being 0). *)
Definition parsed_key (self : Keyboard) (name : string) (last_key : option string)
    (next_key : NextKey) (key : KleKey) : KeyboardKey :=
  {| kk_name := name; kk_last_key := last_key; kk_next_key := next_key;
     kk_eagle_version := eagle_version self;
     kk_switch_footprint := switch_footprint self (kle_width key);
     kk_diode := diode_type self;
     kk_coord := (kle_column key, kle_row key);
     kk_coord_mm := (kle_x key, kle_y key);
     kk_smd_led := smd_led self |}.

Definition parse_step (st : ParseState) (key : KleKey) (name : string)
    (warnings : list string) (new_rows : list (list string)) : ParseState :=
  {| ps_self :=
       set_rows new_rows
         (set_item name
            (parsed_key (ps_self st) name (ps_last_key st) (ps_next_key st) key)
            (ps_self st));
     ps_last_key := Some name; ps_next_key := default_next_key;
     ps_col_num := 0; ps_log := ps_log st ++ warnings |}.

(** The state after [self.rows.append([])] (line 295). *)
Definition open_row (st : ParseState) : ParseState :=
  {| ps_self := set_rows (rows (ps_self st) ++ [[]]) (ps_self st);
     ps_last_key := ps_last_key st; ps_next_key := ps_next_key st;
     ps_col_num := ps_col_num st; ps_log := ps_log st |}.

(** The name before position [i] of a sequence of names. *)
Definition previous (names : list string) (i : nat) : option string :=
  match i with
  | O => None
  | S j => names !! j
  end.

(** The keyboard [__init__] hands to [parse_json] (lines 51-87). *)
Definition blank_keyboard {text : PyText} (decoded : list (list KleKey))
    (version footprint diode_value led : string) : Keyboard :=
  {| items := ∅; layout := decoded; eagle_version := version;
     _switch_footprint := footprint; diode_type := diode_value;
     smd_led := if String.eqb (lower led) "no" then None else Some (lower led);
     rows := []; max_col := 0;
     _column_board_scr := Unset; _column_schematic_scr := Unset |}.

(** ** Example instances *)

Definition demo_config : Config := {| diode := {[ "1N4148" := "DIODE" ]} |}.

(** Coordinates in hundredths of an inch, printed in decimal. *)
Definition demo_float : PyFloat Z := {|
  float_sub := Z.sub; float_add := Z.add; float_0_5 := 50%Z; float_0_75 := 75%Z |}.

Definition demo_functions : Functions Z := {|
  float_to_str := pretty; translate_board_coords s := s |}.

(** Key objects that expose a column pin. *)
Record DemoKey := { dk_name : string; dk_pin : Z * Z }.

Definition demo_item : RowItem DemoKey Z := {|
  truthy _ := true; column_pin_scr k := Ok (dk_pin k) |}.

(** A 1U key record at a grid position. *)
Definition kle (label : string) (column row : Z) : KleKey :=
  {| kle_name := label; kle_width := 1; kle_column := column; kle_row := row;
     kle_x := inject_Z column; kle_y := inject_Z row |}.

(** The 2 x 2 grid Q W / A S, as a decoded layout and as rows of key objects. *)
Definition qwas : list (list KleKey) :=
  [[kle "Q" 0 0; kle "W" 1 0]; [kle "A" 0 1; kle "S" 1 1]].

Definition qwas_keys : list (list DemoKey) :=
  [[{| dk_name := "Q"; dk_pin := (0, 0)%Z |}; {| dk_name := "W"; dk_pin := (100, 0)%Z |}];
   [{| dk_name := "A"; dk_pin := (0, -100)%Z |}; {| dk_name := "S"; dk_pin := (100, -100)%Z |}]].

(** A keyboard built field by field, for statements about one method. *)
Definition keyboard_of (entries : gmap string KeyboardKey) (names : list (list string))
    (columns : nat) (footprint : string) : Keyboard :=
  {| items := entries; layout := []; eagle_version := "pro";
     _switch_footprint := footprint; diode_type := "DIODE"; smd_led := None;
     rows := names; max_col := columns;
     _column_board_scr := Unset; _column_schematic_scr := Unset |}.

Definition key_named (name : string) : KeyboardKey :=
  {| kk_name := name; kk_last_key := None; kk_next_key := default_next_key;
     kk_eagle_version := "pro"; kk_switch_footprint := "MX-1U"; kk_diode := "DIODE";
     kk_coord := (0, 0)%Z; kk_coord_mm := (0, 0)%Q; kk_smd_led := None |}.


(** A keyboard that already has the key [5]. *)
Definition keyboard_with_5 : Keyboard :=
  keyboard_of {[ "5" := key_named "5" ]} [["5"]] 0 "MX".

(** Key fragments that name the key and the key before it. *)
Definition demo_scripts : KeyScripts := {|
  key_board_script _ key := "MOVE " +:+ kk_name key +:+ ";";
  key_schematic_script _ key :=
    "ADD " +:+ kk_name key +:+ " AFTER " +:+ default "-" (kk_last_key key) +:+ ";" |}.

(** Two rows of one key object each. *)
Definition two_rows : list (list DemoKey) :=
  [[{| dk_name := "Q"; dk_pin := (0, 0)%Z |}];
   [{| dk_name := "A"; dk_pin := (0, -100)%Z |}]].

(** A row of three key objects above a row of two. *)
Definition ragged_rows : list (list DemoKey) :=
  [[{| dk_name := "Q"; dk_pin := (0, 0)%Z |}; {| dk_name := "W"; dk_pin := (100, 0)%Z |};
    {| dk_name := "E"; dk_pin := (200, 0)%Z |}];
   [{| dk_name := "A"; dk_pin := (0, -100)%Z |}; {| dk_name := "S"; dk_pin := (100, -100)%Z |}]].

(** * Properties *)

(** ** Label translation *)

Lemma has_key_true self key : has_key self key = true ↔ is_Some (items self !! key).
Proof. unfold has_key. apply bool_decide_eq_true. Qed.

Lemma has_key_false self key : has_key self key = false ↔ items self !! key = None.
Proof.
  unfold has_key. rewrite bool_decide_eq_false, <- eq_None_not_Some. done.
Qed.

Lemma has_key_dom self key : has_key self key = true ↔ key ∈ dom (items self).
Proof. rewrite has_key_true. symmetry. apply elem_of_dom. Qed.

Lemma suffix_inj (base : string) (i j : nat) :
  base +:+ pretty i = base +:+ pretty j → i = j.
Proof. intros Heq. by apply (inj pretty), (inj (String.app base)). Qed.

(** The renaming loop ends before its fuel does, on a free name: the name it
    was entered with if that one is free, and otherwise the first free
    suffixed one. *)
Lemma rename_loop_spec self key_name fuel : ∀ (X : gset string) new i,
  (∀ j, (i ≤ j)%nat → has_key self (key_name +:+ pretty j) = true →
        key_name +:+ pretty j ∈ X) →
  (size X < fuel)%nat →
  ∃ r, rename_loop fuel self key_name new i = Ok r ∧
       ((has_key self new = false ∧ r = new) ∨
        (has_key self new = true ∧
         ∃ j, first_free_from self key_name i j ∧ r = key_name +:+ pretty j)).
Proof.
  induction fuel as [|fuel IH]; intros X new i HX Hsize; [lia|].
  simpl. destruct (has_key self new) eqn:Hnew; [|eauto].
  destruct (has_key self (key_name +:+ pretty i)) eqn:Hi.
  - destruct (IH (X ∖ {[key_name +:+ pretty i]}) (key_name +:+ pretty i) (S i))
      as (r & Hr & Hcase).
    + intros j Hj Hkey. apply elem_of_difference. split; [apply HX; [lia|done]|].
      rewrite elem_of_singleton. intros Heq%suffix_inj. lia.
    + assert (key_name +:+ pretty i ∈ X) as Hin by (apply HX; [lia|done]).
      assert (size X = size (X ∖ {[key_name +:+ pretty i]}) + 1)%nat; [|lia].
      rewrite (size_difference X {[key_name +:+ pretty i]}) by set_solver.
      rewrite size_singleton.
      assert (size X ≠ 0)%nat; [|lia].
      intros Hz%size_empty_inv. set_solver.
    + exists r. split; [done|]. right. split; [done|].
      destruct Hcase as [[Hfree _]|[_ (j & (Hle & Hfree & Hbelow) & ->)]]; [congruence|].
      exists j. split; [|done]. split; [lia|]. split; [done|].
      intros j' Hj'. destruct (decide (j' = i)) as [->|]; [done|]. apply Hbelow. lia.
  - exists (key_name +:+ pretty i). split.
    + destruct fuel; simpl; by rewrite Hi.
    + right. split; [done|]. exists i. split; [|done].
      split; [lia|]. split; [done|]. intros; lia.
Qed.

Lemma rename_loop_enough_fuel self key_name new i :
  ∃ r, rename_loop (S (size (items self))) self key_name new i = Ok r ∧
       ((has_key self new = false ∧ r = new) ∨
        (has_key self new = true ∧
         ∃ j, first_free_from self key_name i j ∧ r = key_name +:+ pretty j)).
Proof.
  apply (rename_loop_spec _ _ _ (dom (items self))).
  - intros j _ Hkey. by apply has_key_dom.
  - rewrite size_dom. lia.
Qed.

Section TranslateFacts.
Context {text : PyText}.

(** Without a collision the candidate is the name, and nothing is logged. *)
Lemma translate_label_free self label :
  has_key self (candidate_name label) = false →
  translate_label self label = Ok (candidate_name label, []).
Proof. intros Hfree. unfold translate_label. by rewrite Hfree. Qed.

(** [translate_label] always returns, and the name it returns is not a key
    of the keyboard yet. *)
Lemma translate_label_fresh self label :
  ∃ name warnings,
    translate_label self label = Ok (name, warnings) ∧ has_key self name = false.
Proof.
  unfold translate_label.
  destruct (has_key self (candidate_name label)) eqn:Hc; [|eauto].
  destruct (isdigit (candidate_name label));
    match goal with
    | |- context [rename_loop ?f self ?k ?n ?i] =>
        destruct (rename_loop_enough_fuel self k n i) as (r & -> & Hcase)
    end; simpl; do 2 eexists; (split; [done|]);
    by destruct Hcase as [[? ->]|[_ (j & (_ & ? & _) & ->)]].
Qed.

End TranslateFacts.

(** ** The layout parser *)

Lemma pop_last_snoc {A} (l : list A) (x : A) : pop_last (l ++ [x]) = Some (x, l).
Proof.
  induction l as [|y l IH]; [done|].
  simpl. rewrite IH. by destruct (l ++ [x]) eqn:Heq; [destruct l|].
Qed.

Lemma pop_last_None {A} (l : list A) : pop_last l = None ↔ l = [].
Proof.
  split; [|by intros ->].
  destruct l as [|x l] using rev_ind; [done|]. by rewrite pop_last_snoc.
Qed.

Lemma pop_last_Some {A} (l l' : list A) (x : A) :
  pop_last l = Some (x, l') ↔ l = l' ++ [x].
Proof.
  split; [|intros ->; apply pop_last_snoc].
  destruct l as [|y l _] using rev_ind; [done|].
  rewrite pop_last_snoc. by intros [= -> ->].
Qed.

Lemma same_settings_refl self : same_settings self self.
Proof. by repeat split. Qed.

Lemma same_settings_trans a b c :
  same_settings a b → same_settings b c → same_settings a c.
Proof. unfold same_settings. intros ? ?. destruct_and!. repeat split; congruence. Qed.

Section ParseFacts.
Context {text : PyText}.

(** One key: the column counter is still 0 when it is compared with
    [max_col], so [max_col] is never assigned. *)
Lemma parse_key_spec st key earlier row :
  rows (ps_self st) = earlier ++ [row] →
  ps_col_num st = 0%nat →
  names_unique (ps_self st) →
  ∃ st' name,
    parse_key st key = Ok st' ∧
    rows (ps_self st') = earlier ++ [row ++ [name]] ∧
    ps_col_num st' = 0%nat ∧
    names_unique (ps_self st') ∧
    same_settings (ps_self st) (ps_self st').
Proof.
  intros Hrows Hcol (Hnodup & Hdom & Hnames).
  destruct (translate_label_fresh (ps_self st) (kle_name key))
    as (name & warnings & Htr & Hfresh%has_key_false).
  unfold parse_key. rewrite Htr. simpl. rewrite Hrows.
  unfold append_to_last_row. rewrite pop_last_snoc. simpl. rewrite Hcol.
  replace (max_col (ps_self st) <? 0)%nat with false
    by (symmetry; apply Nat.ltb_ge; lia).
  eexists _, name. split; [done|]. simpl.
  split; [done|]. split; [done|]. split; [|by repeat split].
  assert (concat (earlier ++ [row ++ [name]]) = concat (rows (ps_self st)) ++ [name])
    as Hconcat.
  { rewrite Hrows, !concat_app. simpl. by rewrite !app_nil_r, app_assoc. }
  split; [|split]; simpl.
  - rewrite Hconcat. apply NoDup_app. split; [done|]. split; [|apply NoDup_singleton].
    intros x Hx ->%list_elem_of_singleton. apply Hdom in Hx as [? ?]. congruence.
  - intros n. rewrite Hconcat, elem_of_app, list_elem_of_singleton, Hdom.
    rewrite lookup_insert. case_decide as Heq; simplify_eq.
    + split; [eauto|]. by right.
    + split; [by intros [?|?]|by left].
  - intros n k. rewrite lookup_insert. case_decide; [by intros [= <-]|]. apply Hnames.
Qed.

Lemma parse_keys_spec keys : ∀ st earlier row,
  rows (ps_self st) = earlier ++ [row] →
  ps_col_num st = 0%nat →
  names_unique (ps_self st) →
  ∃ st' names,
    for_each parse_key st keys = Ok st' ∧
    rows (ps_self st') = earlier ++ [row ++ names] ∧
    length names = length keys ∧
    ps_col_num st' = 0%nat ∧
    names_unique (ps_self st') ∧
    same_settings (ps_self st) (ps_self st').
Proof.
  induction keys as [|key keys IH]; intros st earlier row Hrows Hcol Hinv.
  - exists st, []. rewrite app_nil_r. split_and!; done || apply same_settings_refl.
  - destruct (parse_key_spec st key earlier row Hrows Hcol Hinv)
      as (st1 & name & Hkey & Hrows1 & Hcol1 & Hinv1 & Hsame1).
    destruct (IH st1 earlier (row ++ [name]) Hrows1 Hcol1 Hinv1)
      as (st2 & names & Hrest & Hrows2 & Hlen & Hcol2 & Hinv2 & Hsame2).
    exists st2, (name :: names). simpl. rewrite Hkey. simpl.
    split; [done|]. rewrite Hrows2, <- app_assoc. simpl.
    split; [done|]. split; [by rewrite Hlen|]. split; [done|]. split; [done|].
    by eapply same_settings_trans.
Qed.

Lemma parse_row_spec st row :
  ps_col_num st = 0%nat →
  names_unique (ps_self st) →
  ∃ st' names,
    parse_row st row = Ok st' ∧
    rows (ps_self st') = rows (ps_self st) ++ [names] ∧
    length names = length row ∧
    ps_col_num st' = 0%nat ∧
    names_unique (ps_self st') ∧
    same_settings (ps_self st) (ps_self st').
Proof.
  intros Hcol (Hnodup & Hdom & Hnames). unfold parse_row.
  match goal with |- context [for_each parse_key ?s row] => set (st0 := s) end.
  destruct (parse_keys_spec row st0 (rows (ps_self st)) []) as (st' & names & H);
    [done|done| |by exists st', names].
  assert (concat (rows (ps_self st) ++ [[]]) = concat (rows (ps_self st))) as Hconcat.
  { rewrite concat_app. simpl. by rewrite app_nil_r. }
  split; [|split]; simpl; by rewrite ?Hconcat.
Qed.

Lemma parse_rows_spec grid : ∀ st,
  ps_col_num st = 0%nat →
  names_unique (ps_self st) →
  ∃ st' parsed,
    for_each parse_row st grid = Ok st' ∧
    rows (ps_self st') = rows (ps_self st) ++ parsed ∧
    Forall2 (λ names row, length names = length row) parsed grid ∧
    names_unique (ps_self st') ∧
    same_settings (ps_self st) (ps_self st').
Proof.
  induction grid as [|row grid IH]; intros st Hcol Hinv.
  - exists st, []. rewrite app_nil_r. split_and!; done || apply same_settings_refl.
  - destruct (parse_row_spec st row Hcol Hinv)
      as (st1 & names & Hrow & Hrows1 & Hlen & Hcol1 & Hinv1 & Hsame1).
    destruct (IH st1 Hcol1 Hinv1) as (st2 & parsed & Hrest & Hrows2 & Hall & Hinv2 & Hsame2).
    exists st2, (names :: parsed). simpl. rewrite Hrow. simpl.
    split; [done|]. rewrite Hrows2, Hrows1, <- app_assoc.
    split; [done|]. split; [by constructor|]. split; [done|].
    by eapply same_settings_trans.
Qed.

(** [parse_json] always returns; afterwards the rows mirror the grid, the
    names are unique, and [max_col] is what it was before. *)
Lemma parse_json_spec self :
  names_unique self →
  ∃ self' warnings parsed,
    parse_json self = Ok (self', warnings) ∧
    rows self' = rows self ++ parsed ∧
    Forall2 (λ names row, length names = length row) parsed (layout self) ∧
    names_unique self' ∧
    same_settings self self'.
Proof.
  intros Hinv. unfold parse_json.
  match goal with |- context [for_each parse_row ?s _] => set (st0 := s) end.
  destruct (parse_rows_spec (layout self) st0) as (st' & parsed & -> & H); [done..|].
  by exists (ps_self st'), (ps_log st'), parsed.
Qed.

Context {config : Config}.

(** Construction succeeds for every grid when the diode type is known. *)
Lemma init_spec decoded version footprint diode_name led :
  is_Some (diode !! diode_name) →
  ∃ self warnings,
    __init__ decoded version footprint diode_name led = Ok (self, warnings) ∧
    Forall2 (λ names row, length names = length row) (rows self) decoded ∧
    names_unique self ∧
    max_col self = 0%nat ∧
    eagle_version self = version ∧
    _column_board_scr self = Unset ∧
    _column_schematic_scr self = Unset.
Proof.
  intros [d Hd]. unfold __init__. rewrite Hd. simpl.
  match goal with |- context [parse_json ?s] => set (self0 := s) end.
  destruct (parse_json_spec self0) as (self & warnings & parsed & -> & Hrows & Hall & Hinv & Hsame).
  { split; [constructor|]. split.
    - intros name. simpl. rewrite lookup_empty. split; [by intros ?%elem_of_nil|by intros [? ?]].
    - intros name key. simpl. by rewrite lookup_empty. }
  exists self, warnings. split; [done|]. simpl in Hrows. rewrite Hrows.
  unfold same_settings in Hsame. simpl in Hsame. destruct_and!. by split_and!.
Qed.

End ParseFacts.

(** ** Column synthesis *)

Lemma pop_side_None {A} column (l : list A) : pop_side column l = None ↔ l = [].
Proof.
  unfold pop_side. destruct (Nat.even column); [|apply pop_last_None].
  by destruct l.
Qed.

Lemma pop_side_Permutation {A} column (l l' : list A) x :
  pop_side column l = Some (x, l') → l ≡ₚ x :: l'.
Proof.
  unfold pop_side. destruct (Nat.even column).
  - destruct l; by intros [= -> ->].
  - intros ->%pop_last_Some. by rewrite Permutation_app_comm.
Qed.

Section ColumnFacts.
Context {K F : Type} {float : PyFloat F} {functions : Functions F} {item : RowItem K F}.


Lemma net_triplet_wired last_key key :
  wired last_key → wired key → is_Ok (net_triplet last_key key).
Proof.
  intros [_ Hlast] [_ Hkey]. unfold net_triplet.
  destruct (column_pin_scr last_key) as [[x1 y1]|]; [|done].
  by destruct (column_pin_scr key) as [[x2 y2]|].
Qed.




Lemma taken_cons column (row : list K) rows :
  taken column (row :: rows) =
  match pop_side column row with
  | Some (key, _) => key :: taken column rows
  | None => taken column rows
  end.
Proof. unfold taken. simpl. by destruct (pop_side column row) as [[? ?]|]. Qed.

Lemma remaining_cons column (row : list K) rows :
  remaining column (row :: rows) =
  match pop_side column row with
  | Some (_, row') => row' :: remaining column rows
  | None => row :: remaining column rows
  end.
Proof. unfold remaining. simpl. by destruct (pop_side column row) as [[? ?]|]. Qed.

Lemma taken_nil_remaining column (rows : list (list K)) :
  taken column rows = [] → remaining column rows = rows.
Proof.
  induction rows as [|row rows IH]; [done|].
  rewrite taken_cons, remaining_cons.
  destruct (pop_side column row) as [[k row']|]; [done|].
  intros Hnil. f_equal. by apply IH.
Qed.

Lemma remaining_wired column (rows : list (list K)) :
  Forall wired (concat rows) → Forall wired (concat (remaining column rows)).
Proof.
  induction rows as [|row rows IH]; [done|].
  rewrite remaining_cons. simpl. rewrite Forall_app. intros [Hrow Hrows].
  destruct (pop_side column row) as [[k row']|] eqn:Hpop;
    simpl; rewrite Forall_app; (split; [|by apply IH]); [|done].
  apply pop_side_Permutation in Hpop. rewrite Hpop in Hrow. by inversion Hrow.
Qed.

Lemma taken_wired column (rows : list (list K)) :
  Forall wired (concat rows) → Forall wired (taken column rows).
Proof.
  induction rows as [|row rows IH]; [done|].
  rewrite taken_cons. simpl. rewrite Forall_app. intros [Hrow Hrows].
  destruct (pop_side column row) as [[k row']|] eqn:Hpop; [|by apply IH].
  apply pop_side_Permutation in Hpop. rewrite Hpop in Hrow.
  constructor; [by inversion Hrow|by apply IH].
Qed.

Lemma alter_append (columns : gmap nat (list template)) slot entries nets :
  columns !! slot = Some entries →
  alter (λ l, l ++ [nets]) slot columns = <[slot := entries ++ [nets]]> columns.
Proof.
  intros Hslot. apply map_eq. intros i.
  rewrite lookup_alter, lookup_insert.
  case_decide; simplify_eq; [by rewrite Hslot|done].
Qed.

#[local] Arguments taken : simpl never.
#[local] Arguments remaining : simpl never.

(** Rows that have no key left change nothing. *)
Lemma column_rows_idle column (rows : list (list K)) : ∀ st,
  taken column rows = [] →
  cs_last_key st = cs_key st →
  column_rows column st rows = Ok (st, rows).
Proof.
  induction rows as [|row rows IH]; intros st Htaken Hlast; [done|].
  rewrite taken_cons in Htaken. simpl. unfold column_row.
  destruct (pop_side column row) as [[key row']|]; [done|]. simpl.
  assert ({| cs_key := cs_key st; cs_last_key := cs_key st;
             cs_row_position := cs_row_position st;
             cs_row_positions := cs_row_positions st;
             cs_schematic_columns := cs_schematic_columns st;
             cs_board_columns := cs_board_columns st |} = st) as ->
    by (destruct st; simpl in *; by subst).
  by rewrite IH.
Qed.

(** The rows after the one that claimed the slot: every key taken is linked
    to the key taken before it by one entry. *)
Lemma column_rows_claimed column rows : ∀ st last slot entries,
  wired last →
  Forall wired (taken column rows) →
  cs_key st = Some last →
  cs_last_key st = Some last →
  cs_row_position st = Some (S slot) →
  cs_schematic_columns st !! S slot = Some entries →
  ∃ st' new,
    column_rows column st rows = Ok (st', remaining column rows) ∧
    cs_row_positions st' = cs_row_positions st ∧
    cs_schematic_columns st' = <[S slot := entries ++ new]> (cs_schematic_columns st) ∧
    cs_board_columns st' = cs_board_columns st ∧
    links new (last :: taken column rows).
Proof.
  induction rows as [|row rows IH]; intros st last slot entries Hlast Hkeys Hk Hlk Hpos Hsc.
  - exists st, []. simpl. rewrite app_nil_r, insert_id by done. split_and!; [done..|].
    constructor.
  - rewrite taken_cons in Hkeys. rewrite taken_cons, remaining_cons. simpl.
    unfold column_row.
    destruct (pop_side column row) as [[key row']|] eqn:Hpop; simpl.
    + apply Forall_cons in Hkeys as [Hkey Hkeys].
      rewrite Hpos. simpl. rewrite Hsc, Hlk. rewrite (proj1 Hlast).
      pose proof (net_triplet_wired last key Hlast Hkey) as Hnets.
      destruct (net_triplet last key) as [nets|] eqn:Htriplet; [|done]. simpl.
      rewrite (alter_append _ _ entries) by done.
      match goal with |- context [column_rows column ?s rows] => set (st1 := s) end.
      destruct (IH st1 key slot (entries ++ [nets]))
        as (st' & new & -> & Hrps & Hsc' & Hbc & Hlinks);
        [done..|by apply lookup_insert_eq|].
      subst st1. simpl in Hrps, Hsc', Hbc.
      exists st', (nets :: new). simpl. split; [done|]. split; [done|].
      split; [by rewrite Hsc', insert_insert_eq, <- app_assoc|].
      split; [done|]. by constructor.
    + match goal with |- context [column_rows column ?s rows] => set (st1 := s) end.
      destruct (IH st1 last slot entries) as (st' & new & -> & H);
        [done|done|subst st1; simpl; congruence..|].
      by exists st', new.
Qed.

(** The rows of a traversal index from its start: nothing changes until a
    row yields a key; that row claims the slot, and the later rows are
    linked into it. *)
Lemma column_rows_fresh column rows : ∀ st,
  wirable (taken column rows) →
  cs_key st = None →
  cs_last_key st = None →
  cs_row_position st = None →
  match taken column rows with
  | [] => column_rows column st rows = Ok (st, rows)
  | keys =>
      ∀ slot row_positions,
        pop_side column (cs_row_positions st) = Some (S slot, row_positions) →
        cs_schematic_columns st !! S slot = None →
        ∃ st' new,
          column_rows column st rows = Ok (st', remaining column rows) ∧
          cs_row_positions st' = row_positions ∧
          cs_schematic_columns st' = <[S slot := new]> (cs_schematic_columns st) ∧
          cs_board_columns st' = <[S slot := []]> (cs_board_columns st) ∧
          links new keys
  end.
Proof.
  induction rows as [|row rows IH]; intros st Hkeys Hk Hlk Hpos; [done|].
  rewrite taken_cons in Hkeys. rewrite taken_cons, remaining_cons. simpl.
  unfold column_row.
  destruct (pop_side column row) as [[key row']|] eqn:Hpop; simpl.
  - intros slot row_positions Hclaim Hfree.
    rewrite Hpos. simpl. rewrite Hclaim, Hfree, Hlk. simpl.
    match goal with |- context [column_rows column ?s rows] => set (st1 := s) end.
    destruct (taken column rows) as [|key' keys] eqn:Htaken.
    + rewrite (column_rows_idle column rows st1) by done. simpl.
      rewrite (taken_nil_remaining _ _ Htaken).
      exists st1, []. split_and!; [done..|]. constructor.
    + apply Forall_cons in Hkeys as [Hkey Hkeys]; [|simpl; lia].
      destruct (column_rows_claimed column rows st1 key slot [])
        as (st' & new & -> & Hrps & Hsc & Hbc & Hlinks);
        [done|by rewrite Htaken|done..|by apply lookup_insert_eq|].
      subst st1. simpl in Hrps, Hsc, Hbc. rewrite Htaken in Hlinks.
      exists st', new. simpl. split; [done|]. split; [done|].
      split; [by rewrite Hsc, insert_insert_eq|]. by split_and!.
  - assert ({| cs_key := cs_key st; cs_last_key := cs_key st;
               cs_row_position := cs_row_position st;
               cs_row_positions := cs_row_positions st;
               cs_schematic_columns := cs_schematic_columns st;
               cs_board_columns := cs_board_columns st |} = st) as ->.
    { destruct st; simpl in *; by subst. }
    specialize (IH st Hkeys Hk Hlk Hpos).
    destruct (taken column rows) as [|k keys].
    + by rewrite IH.
    + intros slot row_positions Hclaim Hfree.
      destruct (IH slot row_positions Hclaim Hfree) as (st' & new & -> & H).
      by exists st', new.
Qed.

(** The traversal: every traversal index that takes keys claims a slot of
    its own and leaves in it the links of the keys it took, in row order. *)
Lemma column_passes_spec (columns : list nat) : ∀ st rows,
  Forall (λ assigned, wirable assigned.2)
    (slot_assignment columns (cs_row_positions st) rows) →
  (length columns ≤ length (cs_row_positions st))%nat →
  NoDup (cs_row_positions st) →
  (∀ slot, slot ∈ cs_row_positions st →
           slot ≠ 0%nat ∧ cs_schematic_columns st !! slot = None) →
  ∃ st' rows',
    for_each column_pass (st, rows) columns = Ok (st', rows') ∧
    let slots := slot_assignment columns (cs_row_positions st) rows in
    NoDup slots.*1 ∧
    (∀ slot, slot ∈ slots.*1 → slot ∈ cs_row_positions st) ∧
    (∀ slot keys, (slot, keys) ∈ slots →
       keys ≠ [] ∧
       ∃ entries,
         cs_schematic_columns st' !! slot = Some entries ∧
         links entries keys ∧
         cs_board_columns st' !! slot = Some []) ∧
    (∀ slot, slot ∉ slots.*1 →
       cs_schematic_columns st' !! slot = cs_schematic_columns st !! slot ∧
       cs_board_columns st' !! slot = cs_board_columns st !! slot).
Proof.
  induction columns as [|column columns IH]; intros st rows Hkeys Hlen Hnodup Hfree.
  - exists st, rows. simpl. split; [done|]. split; [constructor|].
    split; [by intros ? ?%elem_of_nil|]. split; [by intros ? ? ?%elem_of_nil|done].
  - simpl for_each. unfold column_pass at 1.
    match goal with |- context [column_rows column ?s rows] => set (st0 := s) end.
    simpl slot_assignment in Hkeys |- *.
    destruct (taken column rows) as [|key keys] eqn:Htaken.
    + rewrite (column_rows_idle column rows st0) by done. simpl.
      rewrite (taken_nil_remaining _ _ Htaken) in Hkeys |- *.
      destruct (IH st0 rows) as (st' & rows' & Hrun & H); [done|simpl in *; lia|done..|].
      by exists st', rows'.
    + destruct (pop_side column (cs_row_positions st)) as [[slot row_positions]|] eqn:Hpop;
        [|apply pop_side_None in Hpop; rewrite Hpop in Hlen; simpl in Hlen; lia].
      apply Forall_cons in Hkeys as [Hhead Hkeys]. simpl in Hhead.
      pose proof (pop_side_Permutation _ _ _ _ Hpop) as Hperm.
      assert (slot ∈ cs_row_positions st) as Hin by (rewrite Hperm; left).
      destruct (Hfree slot Hin) as [Hpos Hnone].
      destruct slot as [|slot]; [done|].
      pose proof (column_rows_fresh column rows st0) as Hpass.
      rewrite Htaken in Hpass.
      destruct (Hpass Hhead eq_refl eq_refl eq_refl slot row_positions Hpop Hnone)
        as (st1 & new & -> & Hrps & Hsc & Hbc & Hlinks).
      simpl. rewrite Hperm in Hnodup, Hlen. apply NoDup_cons in Hnodup as [Hnotin Hnodup].
      destruct (IH st1 (remaining column rows))
        as (st' & rows' & Hrun & Hnd & Hsub & Hin' & Hout).
      { by rewrite Hrps. }
      { rewrite Hrps. simpl in Hlen. lia. }
      { by rewrite Hrps. }
      { rewrite Hrps. intros s Hs. destruct (Hfree s) as [? ?]; [rewrite Hperm; by right|].
        split; [done|]. rewrite Hsc. subst st0. simpl.
        rewrite lookup_insert_ne; [done|]. intros <-. done. }
      rewrite Hrps in Hnd, Hsub, Hin', Hout.
      exists st', rows'. split; [done|]. simpl.
      split; [apply NoDup_cons; split; [|done]; intros ?%Hsub; done|].
      split.
      { intros s [->|Hs]%elem_of_cons; rewrite Hperm; [left|right; by apply Hsub]. }
      split.
      { intros s ks [[= -> ->]|Hs]%elem_of_cons; [|by apply Hin'].
        destruct (Hout (S slot)) as [Hsc' Hbc']; [by intros ?%Hsub|].
        split; [done|].
        exists new. by rewrite Hsc', Hsc, Hbc', Hbc, !lookup_insert_eq. }
      intros s Hs. apply not_elem_of_cons in Hs as [Hne Hs].
      destruct (Hout s Hs) as [-> ->]. rewrite Hsc, Hbc. subst st0. simpl.
      by rewrite !lookup_insert_ne.
Qed.

(** The traversal of [column_scr] returns when the keys of every slot can
    be linked. *)
Lemma traverse_spec rows max_col :
  slots_wirable rows max_col →
  ∃ st rows',
    traverse rows max_col = Ok (st, rows') ∧
    let slots := slot_assignment (seq 1 max_col) (seq 1 max_col) rows in
    NoDup slots.*1 ∧
    (∀ slot keys, (slot, keys) ∈ slots →
       keys ≠ [] ∧
       ∃ entries,
         cs_schematic_columns st !! slot = Some entries ∧
         links entries keys ∧
         cs_board_columns st !! slot = Some []) ∧
    (∀ slot, slot ∉ slots.*1 →
       cs_schematic_columns st !! slot = None ∧ cs_board_columns st !! slot = None).
Proof.
  intros Hkeys. unfold traverse.
  match goal with |- context [for_each column_pass (?s, rows) _] => set (st0 := s) end.
  destruct (column_passes_spec (seq 1 max_col) st0 rows)
    as (st & rows' & Hrun & Hnd & _ & Hin & Hout); [done|done|apply NoDup_seq| |].
  { intros slot Hslot%elem_of_seq. split; [lia|apply lookup_empty]. }
  exists st, rows'. split; [done|]. split; [done|]. split; [done|].
  intros slot Hslot. destruct (Hout slot Hslot) as [-> ->]. subst st0. simpl.
  by rewrite !lookup_empty.
Qed.

(** Rows of wired keys: the keys of every slot can be linked. *)
Lemma wired_rows_wirable (columns : list nat) : ∀ row_positions (rows : list (list K)),
  Forall wired (concat rows) →
  Forall (λ assigned, wirable assigned.2) (slot_assignment columns row_positions rows).
Proof.
  induction columns as [|column columns IH]; intros row_positions rows Hrows; [constructor|].
  simpl. pose proof (taken_wired column rows Hrows) as Htaken.
  pose proof (remaining_wired column rows Hrows) as Hrest.
  destruct (taken column rows) as [|key keys]; [by apply IH|].
  destruct (pop_side column row_positions) as [[slot row_positions']|]; [|by apply IH].
  constructor; [by intros _|by apply IH].
Qed.

(** *** Renumbering *)

Lemma string_app_assoc (s1 s2 s3 : string) : (s1 +:+ s2) +:+ s3 = s1 +:+ (s2 +:+ s3).
Proof.
  induction s1 as [|c s1 IH]; [done|].
  change (String c ((s1 +:+ s2) +:+ s3) = String c (s1 +:+ (s2 +:+ s3))). by rewrite IH.
Qed.

Lemma string_app_nil_r (s : string) : s +:+ "" = s.
Proof.
  induction s as [|c s IH]; [done|]. change (String c (s +:+ "") = String c s). by rewrite IH.
Qed.

Lemma substitute_app column (t1 t2 : template) :
  substitute column (t1 ++ t2) = substitute column t1 +:+ substitute column t2.
Proof.
  induction t1 as [|[s|] t1 IH]; [done|..]; simpl; by rewrite IH, string_app_assoc.
Qed.

(** Filling in the column number of joined entries fills it in each entry. *)
Lemma substitute_join column sep (entries : list template) :
  substitute column (join_templates sep entries) = join sep (substitute column <$> entries).
Proof.
  induction entries as [|t [|t' entries] IH]; [done..|].
  change (join_templates sep (t :: t' :: entries))
    with (t ++ Text sep :: join_templates sep (t' :: entries)).
  rewrite substitute_app.
  change (substitute column (Text sep :: join_templates sep (t' :: entries)))
    with (sep +:+ substitute column (join_templates sep (t' :: entries))).
  by rewrite IH.
Qed.

(** A NET statement after the second formatting: the slot number is its
    column label. *)
Lemma substitute_net column x1 y1 x2 y2 ending :
  substitute column (net x1 y1 x2 y2 ending) =
  "NET COLUMN" +:+ pretty column +:+ " (" +:+ float_to_str x1 +:+ " " +:+ float_to_str y1
    +:+ ") (" +:+ float_to_str x2 +:+ " " +:+ float_to_str y2 +:+ ");" +:+ ending.
Proof. unfold net. cbn [substitute]. by rewrite string_app_nil_r. Qed.

Lemma sorted_columns_elem (columns : gmap nat (list template)) slot :
  slot ∈ sorted_columns columns ↔ is_Some (columns !! slot).
Proof.
  unfold sorted_columns. by rewrite merge_sort_Permutation, elem_of_elements, elem_of_dom.
Qed.

Lemma sorted_columns_NoDup (columns : gmap nat (list template)) :
  NoDup (sorted_columns columns).
Proof. unfold sorted_columns. rewrite merge_sort_Permutation. apply NoDup_elements. Qed.

Lemma sorted_columns_ascending (columns : gmap nat (list template)) :
  StronglySorted lt (sorted_columns columns).
Proof.
  pose proof (sorted_columns_NoDup columns) as Hnodup.
  assert (StronglySorted le (sorted_columns columns)) as Hsorted
    by (apply (StronglySorted_merge_sort _); apply _).
  induction Hsorted as [|slot slots _ IH Hle]; [constructor|].
  apply NoDup_cons in Hnodup as [Hnotin Hnodup].
  constructor; [by apply IH|].
  apply Forall_forall. intros slot' Hin.
  assert (slot ≤ slot')%nat by (by eapply Forall_forall in Hle).
  assert (slot ≠ slot') by (by intros ->). lia.
Qed.

Lemma renumber_spec (schematic_columns board_columns : gmap nat (list template)) columns :
  ∀ schematic board,
    (∀ column, column ∈ columns →
       is_Some (schematic_columns !! column) ∧ is_Some (board_columns !! column)) →
    for_each (renumber schematic_columns board_columns) (schematic, board) columns =
    Ok (schematic ++
          ((λ column, substitute column (join_templates NL (schematic_columns !!! column)))
             <$> columns),
        board ++
          ((λ column, substitute column (join_templates NL (board_columns !!! column)))
             <$> columns)).
Proof.
  induction columns as [|column columns IH]; intros schematic board Hin.
  - simpl. by rewrite !app_nil_r.
  - destruct (Hin column) as [[s Hs] [b Hb]]; [left|].
    simpl. unfold getitem. rewrite Hs, Hb. simpl.
    rewrite IH by (intros ? ?; apply Hin; by right).
    rewrite !(lookup_total_correct _ _ _ Hs), !(lookup_total_correct _ _ _ Hb).
    by rewrite <- !app_assoc.
Qed.

(** [column_scr] returns when the keys of every slot can be linked; the
    schematic script is made of the groups of the slots in ascending order. *)
Lemma column_scr_of_spec rows max_col version :
  slots_wirable rows max_col →
  ∃ st rows' board,
    traverse rows max_col = Ok (st, rows') ∧
    column_scr_of rows max_col version =
      Ok (join NL (column_group (cs_schematic_columns st)
                     <$> sorted_columns (cs_schematic_columns st)),
          board).
Proof.
  intros Hrows.
  destruct (traverse_spec rows max_col Hrows) as (st & rows' & Hrun & _ & Hin & Hout).
  unfold column_scr_of. rewrite Hrun. simpl.
  rewrite renumber_spec.
  - simpl. eexists st, rows', _. split; [done|]. f_equal. f_equal. f_equal.
    apply list_fmap_ext. intros _ slot _. apply substitute_join.
  - intros slot Hslot%sorted_columns_elem.
    split; [done|].
    destruct (decide (slot ∈ (slot_assignment (seq 1 max_col) (seq 1 max_col) rows).*1))
      as [Hyes|Hno].
    + apply list_elem_of_fmap in Hyes as ([slot' keys] & -> & Hpair).
      destruct (Hin _ _ Hpair) as (_ & entries & _ & _ & Hboard). simpl. eauto.
    + destruct (Hout slot Hno) as [Hnone _]. rewrite Hnone in Hslot. by destruct Hslot.
Qed.

End ColumnFacts.

(** ** The keyboard [parse_json] builds never runs a traversal index *)

Section ProgramFacts.
Context {K F : Type} {float : PyFloat F} {functions : Functions F} {item : RowItem K F}.

(** With [max_col = 0] the traversal loop has no iteration. *)
Lemma column_scr_of_no_columns (rows : list (list K)) version :
  column_scr_of rows 0 version =
  Ok ("", if String.eqb version "free" then translate_board_coords "" else "").
Proof.
  unfold column_scr_of, traverse. simpl.
  unfold sorted_columns. by rewrite dom_empty_L, elements_empty.
Qed.

End ProgramFacts.

(** * The claims *)

(** C1 (the code departs from the claim): [max_col] is not the length of the
    longest row.  For the grid of one row with the single key Q, parsing
    leaves one row of length 1 and [max_col = 0]: the column counter is reset
    but never incremented, so the comparison that would store it never
    succeeds. *)
Theorem max_col_single_key :
  ∃ self warnings,
    __init__ (text := byte_text) (config := demo_config)
      [[kle "Q" 0 0]] "pro" "MX" "1N4148" "No" = Ok (self, warnings) ∧
    rows self = [["Q"]] ∧
    longest_row (rows self) = 1%nat ∧
    max_col self = 0%nat.
Proof. eexists _, _. split; [vm_compute; reflexivity|]. by vm_compute. Qed.

(** C2 (the code departs from the claim): for the 2 x 2 grid Q W / A S the
    constructor leaves [max_col = 0], so column synthesis runs no traversal
    index: it produces no column slot and an empty schematic script, not two
    slots with one net triplet each. *)
Theorem qwas_no_column_slots :
  ∃ self warnings st rows',
    __init__ (text := byte_text) (config := demo_config)
      qwas "pro" "MX" "1N4148" "No" = Ok (self, warnings) ∧
    rows self = [["Q"; "W"]; ["A"; "S"]] ∧
    max_col self = 0%nat ∧
    traverse (float := demo_float) (functions := demo_functions)
      (rows self) (max_col self) = Ok (st, rows') ∧
    cs_schematic_columns st = ∅ ∧
    column_schematic_scr (float := demo_float) (functions := demo_functions) self =
      Ok (Script "", set_column_scr "" "" self).
Proof.
  eexists _, _, _, _. split; [vm_compute; reflexivity|].
  split; [by vm_compute|]. split; [by vm_compute|].
  split; [vm_compute; reflexivity|]. split; [done|]. by vm_compute.
Qed.

(** Were [max_col] the row length 2, the same rows would make [column_scr]
    raise: the rows hold key names, which have no column pin. *)
Example qwas_names_have_no_pin :
  column_scr_of (float := demo_float) (functions := demo_functions)
    [["Q"; "W"]; ["A"; "S"]] 2 "pro" = Raise (AttributeError "column_pin_scr").
Proof. by vm_compute. Qed.

(** A single row of names needs no link: with [max_col = 3] it claims three
    slots and emits no NET statement. *)
Example single_row_three_slots :
  ∃ st rows',
    traverse (float := demo_float) (functions := demo_functions) [["Q"; "W"; "E"]] 3
      = Ok (st, rows') ∧
    (λ slot, cs_schematic_columns st !! slot) <$> [0; 1; 2; 3; 4]%nat
      = [None; Some []; Some []; Some []; None] ∧
    column_scr_of (float := demo_float) (functions := demo_functions)
      [["Q"; "W"; "E"]] 3 "pro" = Ok (NL +:+ NL, NL +:+ NL).
Proof.
  eexists _, _. split; [vm_compute; reflexivity|]. split; by vm_compute.
Qed.

(** On rows of key objects, and with [max_col = 2], the traversal gives what
    the scenario describes: slot 2 links W to S, slot 1 links Q to A. *)
Example qwas_keys_two_slots :
  ∃ st rows' q_a w_s,
    traverse (float := demo_float) (functions := demo_functions) (item := demo_item)
      qwas_keys 2 = Ok (st, rows') ∧
    dom (cs_schematic_columns st) = {[1%nat; 2%nat]} ∧
    cs_schematic_columns st !! 1%nat = Some [q_a] ∧
    cs_schematic_columns st !! 2%nat = Some [w_s] ∧
    slot_assignment [1; 2]%nat [1; 2]%nat qwas_keys =
      [(2%nat, [{| dk_name := "W"; dk_pin := (100, 0)%Z |};
                {| dk_name := "S"; dk_pin := (100, -100)%Z |}]);
       (1%nat, [{| dk_name := "Q"; dk_pin := (0, 0)%Z |};
                {| dk_name := "A"; dk_pin := (0, -100)%Z |}])].
Proof.
  eexists _, _, _, _. split; [vm_compute; reflexivity|].
  split; [by vm_compute|]. split; [vm_compute; reflexivity|].
  split; [vm_compute; reflexivity|]. done.
Qed.

(** C3 (counterexample): the empty grid does not make construction fail.
    The constructor returns a keyboard with no rows and no keys, and logs
    nothing. *)
Lemma empty_grid_constructs :
  ∃ self,
    __init__ (text := byte_text) (config := demo_config)
      [] "pro" "MX" "1N4148" "No" = Ok (self, []) ∧
    rows self = [] ∧ items self = ∅.
Proof. eexists. split; [vm_compute; reflexivity|]. done. Qed.

Section Construction.
Context {text : PyText} {config : Config}.

(** C3 (as amended): for the empty grid, and a diode type the configuration
    knows, construction succeeds and yields the empty keyboard: no rows, no
    keys, [max_col = 0], no warning.  The parser checks nothing about the
    grid. *)
Theorem init_empty_grid version footprint diode_name led :
  is_Some (diode !! diode_name) →
  ∃ self,
    __init__ [] version footprint diode_name led = Ok (self, []) ∧
    rows self = [] ∧ items self = ∅ ∧ max_col self = 0%nat.
Proof. intros [d Hd]. unfold __init__. rewrite Hd. simpl. by eexists. Qed.

(** C5: after parsing, no two keys share a name.  For every grid (and a
    known diode type) construction returns a keyboard in which the names in
    the rows are pairwise different, are exactly the keys of the dict, and
    each entry carries the name it is stored under; every key record of the
    grid has its own name, row by row. *)
Theorem names_unique_after_parsing decoded version footprint diode_name led :
  is_Some (diode !! diode_name) →
  ∃ self warnings,
    __init__ decoded version footprint diode_name led = Ok (self, warnings) ∧
    NoDup (concat (rows self)) ∧
    (∀ name, name ∈ concat (rows self) ↔ is_Some (items self !! name)) ∧
    (∀ name key, items self !! name = Some key → kk_name key = name) ∧
    Forall2 (λ names row, length names = length row) (rows self) decoded.
Proof.
  intros Hdiode.
  destruct (init_spec decoded version footprint diode_name led Hdiode)
    as (self & warnings & Hinit & Hrows & (Hnodup & Hdom & Hnames) & _).
  by exists self, warnings.
Qed.

End Construction.

Lemma init_empty_grid_witness :
  is_Some (diode (Config := demo_config) !! "1N4148") ∧
  ∃ self,
    __init__ (text := byte_text) (config := demo_config)
      [] "free" "MX-LED" "1N4148" "Yes" = Ok (self, []) ∧
    rows self = [] ∧ items self = ∅ ∧ max_col self = 0%nat.
Proof.
  assert (is_Some (diode (Config := demo_config) !! "1N4148")) as Hdiode
    by (vm_compute; eauto).
  split; [exact Hdiode|].
  exact (init_empty_grid (text := byte_text) (config := demo_config)
           "free" "MX-LED" "1N4148" "Yes" Hdiode).
Defined.

Lemma names_unique_after_parsing_witness :
  is_Some (diode (Config := demo_config) !! "1N4148") ∧
  ∃ self warnings,
    __init__ (text := byte_text) (config := demo_config)
      [[kle "a" 0 0; kle "A" 1 0; kle "a2" 2 0]; [kle "5" 0 1; kle "5" 1 1]]
      "pro" "MX" "1N4148" "No" = Ok (self, warnings) ∧
    NoDup (concat (rows self)).
Proof.
  assert (is_Some (diode (Config := demo_config) !! "1N4148")) as Hdiode
    by (vm_compute; eauto).
  split; [exact Hdiode|].
  destruct (names_unique_after_parsing (text := byte_text) (config := demo_config)
              [[kle "a" 0 0; kle "A" 1 0; kle "a2" 2 0]; [kle "5" 0 1; kle "5" 1 1]]
              "pro" "MX" "1N4148" "No" Hdiode)
    as (self & warnings & Hinit & Hnodup & _).
  exists self, warnings. split; [exact Hinit|exact Hnodup].
Defined.

(** The names of that keyboard. *)
Example renamed_keys :
  (λ r, rows r.1) <$>
    __init__ (text := byte_text) (config := demo_config)
      [[kle "a" 0 0; kle "A" 1 0; kle "a2" 2 0]; [kle "5" 0 1; kle "5" 1 1]]
      "pro" "MX" "1N4148" "No"
  = Ok [["A"; "A2"; "A22"]; ["5"; "KP_5"]].
Proof. by vm_compute. Qed.

Section Collisions.
Context {text : PyText}.

(** C6: collision resolution.  When the candidate name is already a key of
    the keyboard: a numeric candidate gets the prefix [KP_], and the
    prefixed name is returned if it is free and is otherwise the base of the
    suffix search; any other candidate is its own base.  The suffix search
    returns the base followed by the first integer from 2 on that makes a
    free name.  The name returned is free, and exactly one warning is
    logged. *)
Theorem translate_label_collision self label :
  has_key self (candidate_name label) = true →
  let candidate := candidate_name label in
  let base := if isdigit candidate then "KP_" +:+ candidate else candidate in
  ∃ new,
    translate_label self label = Ok (new, [duplicate_warning base new]) ∧
    has_key self new = false ∧
    ((isdigit candidate = true ∧ has_key self base = false ∧ new = base) ∨
     ((isdigit candidate = true → has_key self base = true) ∧
      ∃ j, first_free self base j ∧ new = base +:+ pretty j)).
Proof.
  intros Hc candidate base. subst candidate base. unfold translate_label. rewrite Hc.
  destruct (isdigit (candidate_name label)) eqn:Hdigit.
  - destruct (rename_loop_enough_fuel self ("KP_" +:+ candidate_name label)
                ("KP_" +:+ candidate_name label) 2) as (new & -> & Hcase).
    simpl. exists new. split; [done|].
    destruct Hcase as [[Hfree ->]|[Htaken (j & Hj & ->)]].
    + split; [done|]. by left.
    + split; [apply Hj|]. right. split; [done|]. by exists j.
  - destruct (rename_loop_enough_fuel self (candidate_name label)
                (candidate_name label +:+ pretty 2%nat) 2) as (new & -> & Hcase).
    simpl. exists new. split; [done|].
    destruct Hcase as [[Hfree ->]|[Htaken (j & Hj & ->)]].
    + split; [done|]. right. split; [done|]. exists 2%nat. split; [|done].
      split; [done|]. split; [done|]. intros; lia.
    + split; [apply Hj|]. right. split; [done|]. by exists j.
Qed.

(** C8 (as amended): the label [*] has the candidate name [KP_ASTERISK],
    whatever the symbol table says (it maps [*] to [8]); that is the name
    returned unless a key of that name exists already, and then collision
    resolution returns [KP_ASTERISK] followed by the first free suffix. *)
Theorem asterisk_translation self :
  key_translation !! "*" = Some "8" ∧
  candidate_name "*" = "KP_ASTERISK" ∧
  (has_key self "KP_ASTERISK" = false ∧
   translate_label self "*" = Ok ("KP_ASTERISK", [])
   ∨
   has_key self "KP_ASTERISK" = true ∧
   ∃ j, first_free self "KP_ASTERISK" j ∧
        translate_label self "*" =
        Ok ("KP_ASTERISK" +:+ pretty j,
            [duplicate_warning "KP_ASTERISK" ("KP_ASTERISK" +:+ pretty j)])).
Proof.
  assert (candidate_name "*" = "KP_ASTERISK") as Hcandidate by done.
  split; [done|]. split; [done|].
  unfold translate_label. rewrite Hcandidate.
  destruct (has_key self "KP_ASTERISK") eqn:Hkey; [right|by left].
  split; [done|].
  rewrite (isdigit_ascii "KP_ASTERISK") by done.
  change (digits_only "KP_ASTERISK") with false. cbv iota.
  destruct (rename_loop_enough_fuel self "KP_ASTERISK" ("KP_ASTERISK" +:+ pretty 2%nat) 2)
    as (new & -> & Hcase). simpl.
  destruct Hcase as [[Hfree ->]|[Htaken (j & Hj & ->)]].
  - exists 2%nat. split; [|done]. split; [done|]. split; [done|]. intros; lia.
  - by exists j.
Qed.

End Collisions.

Lemma translate_label_collision_witness :
  has_key keyboard_with_5 (candidate_name (text := byte_text) "5") = true ∧
  ∃ new,
    translate_label (text := byte_text) keyboard_with_5 "5" =
      Ok (new, [duplicate_warning "KP_5" new]) ∧
    has_key keyboard_with_5 new = false.
Proof.
  split; [reflexivity|].
  destruct (translate_label_collision (text := byte_text) keyboard_with_5 "5" eq_refl)
    as (new & Heq & Hfree & _).
  exists new. split; [exact Heq|exact Hfree].
Defined.

(** The second key labelled [5] is [KP_5], the third [KP_52]; the second
    [A] is [A2]. *)
Example numeric_and_other_collisions :
  (λ r, (rows r.1, r.2)) <$>
    __init__ (text := byte_text) (config := demo_config)
      [[kle "5" 0 0; kle "5" 1 0; kle "5" 2 0; kle "a" 3 0; kle "A" 4 0]]
      "pro" "MX" "1N4148" "No"
  = Ok ([["5"; "KP_5"; "KP_52"; "A"; "A2"]],
        ["Duplicate key KP_5! Renaming to KP_5!";
         "Duplicate key KP_5! Renaming to KP_52!";
         "Duplicate key A! Renaming to A2!"]).
Proof. by vm_compute. Qed.

(** C8 (counterexample): of two keys labelled [*], the second is not named
    [KP_ASTERISK]. *)
Lemma second_asterisk_renamed :
  (λ r, (rows r.1, r.2)) <$>
    __init__ (text := byte_text) (config := demo_config)
      [[kle "*" 0 0; kle "*" 1 0]] "pro" "MX" "1N4148" "No"
  = Ok ([["KP_ASTERISK"; "KP_ASTERISK2"]],
        ["Duplicate key KP_ASTERISK! Renaming to KP_ASTERISK2!"]).
Proof. by vm_compute. Qed.

(** C7: footprint selection is total and follows the bucket table: the
    footprint is the base name, a dash and the bucket of the width (2, 2.25,
    2.75 and 4 give 2U; 6.25, 6.5 and 7 their own bucket; every other width
    1U), with the LED marker appended where the name asks for it. *)
Theorem switch_footprint_buckets self key_width :
  switch_footprint self key_width =
  led_variant (_switch_footprint self +:+ "-" +:+ lookup_bucket footprint_table key_width).
Proof.
  unfold switch_footprint, width_in, footprint_table, lookup_bucket, led_variant, existsb.
  repeat (destruct (Qeq_bool key_width _); [reflexivity|]; cbv [orb]).
  reflexivity.
Qed.

Example footprints :
  (switch_footprint (keyboard_of ∅ [] 0 "MX") <$> [1; 1.5; 2; 2.25; 2.75; 4; 6.25; 6.5; 7; 3]%Q)
  = ["MX-1U"; "MX-1U"; "MX-2U"; "MX-2U"; "MX-2U"; "MX-2U"; "MX-6.25U"; "MX-6.5U"; "MX-7U";
     "MX-1U"] ∧
  switch_footprint (keyboard_of ∅ [] 0 "MX-LED") (200 # 100) = "MX-LED-2U-LED" ∧
  switch_footprint (keyboard_of ∅ [] 0 "MX-RGBLED") 7 = "MX-RGBLED-7U-RGB".
Proof. by vm_compute. Qed.

(** Two rows of one key object each, wired into one slot: the two keys are
    linked by one entry, and the entry holds the three NET lines of
    [net_triplet]. *)
Lemma two_keys_three_net_statements :
  ∃ st rows' entries,
    traverse (float := demo_float) (functions := demo_functions) (item := demo_item)
      two_rows 1 = Ok (st, rows') ∧
    slot_assignment [1%nat] [1%nat] two_rows = [(1%nat, concat two_rows)] ∧
    length (concat two_rows) = 2%nat ∧
    cs_schematic_columns st !! 1%nat = Some entries ∧
    length entries = 1%nat ∧
    net_statements entries = 3%nat.
Proof.
  eexists _, _, _. split; [vm_compute; reflexivity|]. split; [done|]. split; [done|].
  split; [vm_compute; reflexivity|]. done.
Qed.

Section Synthesis.
Context {K F : Type} {float : PyFloat F} {functions : Functions F} {item : RowItem K F}.


(** C9: the column script lists the slots in strictly ascending order.
    When the keys that share a slot have a column pin, [column_scr] returns,
    and its schematic script is the groups of the slots the traversal
    claimed, joined in strictly ascending slot order, whatever the order in
    which they were claimed; the group of a slot is its entries (the links
    of the keys assigned to it) with the slot number filled in, and so the
    slot number is the column label of every NET statement of the group. *)
Theorem column_scr_ascending (rows : list (list K)) max_col version :
  slots_wirable rows max_col →
  ∃ st rows' board,
    traverse rows max_col = Ok (st, rows') ∧
    let columns := cs_schematic_columns st in
    column_scr_of rows max_col version =
      Ok (join NL (column_group columns <$> sorted_columns columns), board) ∧
    StronglySorted lt (sorted_columns columns) ∧
    sorted_columns columns ≡ₚ (slot_assignment (seq 1 max_col) (seq 1 max_col) rows).*1 ∧
    (∀ slot keys, (slot, keys) ∈ slot_assignment (seq 1 max_col) (seq 1 max_col) rows →
       ∃ entries,
         links entries keys ∧
         column_group columns slot = join NL (substitute slot <$> entries)) ∧
    ∀ slot x1 y1 x2 y2 ending,
      substitute slot (net x1 y1 x2 y2 ending) =
      "NET COLUMN" +:+ pretty slot +:+ " (" +:+ float_to_str x1 +:+ " " +:+ float_to_str y1
        +:+ ") (" +:+ float_to_str x2 +:+ " " +:+ float_to_str y2 +:+ ");" +:+ ending.
Proof.
  intros Hrows.
  destruct (column_scr_of_spec rows max_col version Hrows)
    as (st & rows' & board & Hrun & Hscr).
  destruct (traverse_spec rows max_col Hrows)
    as (st1 & rows1 & Hrun1 & Hnodup & Hin & Hout).
  rewrite Hrun in Hrun1. injection Hrun1 as <- <-.
  exists st, rows', board. split; [done|]. split; [done|].
  split; [apply sorted_columns_ascending|]. split; [|split; [|apply substitute_net]].
  2:{ intros slot keys Hpair.
      destruct (Hin _ _ Hpair) as (_ & entries & Hsc & Hlinks & _).
      exists entries. split; [done|].
      unfold column_group. by rewrite (lookup_total_correct _ _ _ Hsc). }
  apply NoDup_Permutation; [apply sorted_columns_NoDup|done|].
  intros slot. rewrite sorted_columns_elem. split.
  - intros Hsome.
    destruct (decide (slot ∈ (slot_assignment (seq 1 max_col) (seq 1 max_col) rows).*1))
      as [|Hno]; [done|].
    destruct (Hout slot Hno) as [Hnone _]. rewrite Hnone in Hsome. by destruct Hsome.
  - intros ([slot' keys] & -> & Hpair)%list_elem_of_fmap.
    destruct (Hin _ _ Hpair) as (_ & entries & Hsc & _). simpl. eauto.
Qed.

End Synthesis.


Lemma column_scr_ascending_witness :
  slots_wirable (item := demo_item) ragged_rows 3 ∧
  ∃ st rows' board,
    traverse (float := demo_float) (functions := demo_functions) (item := demo_item)
      ragged_rows 3 = Ok (st, rows') ∧
    column_scr_of (float := demo_float) (functions := demo_functions) (item := demo_item)
      ragged_rows 3 "pro" =
      Ok (join NL (column_group (cs_schematic_columns st)
                     <$> sorted_columns (cs_schematic_columns st)), board) ∧
    StronglySorted lt (sorted_columns (cs_schematic_columns st)).
Proof.
  assert (slots_wirable (item := demo_item) ragged_rows 3) as Hwired
    by (unfold slots_wirable; simpl;
        repeat (constructor; [intros _; repeat constructor|]); constructor).
  split; [exact Hwired|].
  destruct (column_scr_ascending (float := demo_float) (functions := demo_functions)
              (item := demo_item) ragged_rows 3 "pro" Hwired)
    as (st & rows' & board & Hrun & Hscr & Hsorted & _).
  exists st, rows', board. split; [exact Hrun|]. split; [exact Hscr|exact Hsorted].
Defined.

(** On these rows the slots are claimed in the order 3, 1, 2 and emitted in
    the order 1, 2, 3. *)
Example claimed_and_emitted_order :
  (slot_assignment (seq 1 3) (seq 1 3) ragged_rows).*1 = [3; 1; 2]%nat ∧
  ∃ st rows',
    traverse (float := demo_float) (functions := demo_functions) (item := demo_item)
      ragged_rows 3 = Ok (st, rows') ∧
    sorted_columns (cs_schematic_columns st) = [1; 2; 3]%nat ∧
    column_group (cs_schematic_columns st) 1 =
      "NET COLUMN1 (0 0) (0 -50);" +:+ NL +:+
      "NET COLUMN1 (0 -50) (0 -25);" +:+ NL +:+
      "NET COLUMN1 (0 -25) (0 -100);" ∧
    column_group (cs_schematic_columns st) 2 = "".
Proof.
  split; [done|]. eexists _, _. split; [vm_compute; reflexivity|]. by vm_compute.
Qed.

Section BoardScript.
Context {text : PyText} {config : Config}.
Context {F : Type} {float : PyFloat F} {functions : Functions F}.

(** C10: the column board script of a keyboard is the empty string.  For
    every grid (and a known diode type) the constructor returns a keyboard
    whose [column_board_scr] is [''].  For the dialect [free] the script
    passes through [translate_board_coords], which is taken to map the empty
    script to itself. *)
Theorem column_board_scr_empty decoded version footprint diode_name led :
  is_Some (diode !! diode_name) →
  (version = "free" → translate_board_coords "" = "") →
  ∃ self warnings self',
    __init__ decoded version footprint diode_name led = Ok (self, warnings) ∧
    column_board_scr self = Ok (Script "", self').
Proof.
  intros Hdiode Hdialect.
  destruct (init_spec decoded version footprint diode_name led Hdiode)
    as (self & warnings & Hinit & _ & _ & Hmax & Hversion & Hboard & _).
  exists self, warnings. eexists. split; [done|].
  unfold column_board_scr, column_scr. rewrite Hboard, Hmax, Hversion. simpl.
  rewrite column_scr_of_no_columns. simpl.
  destruct (String.eqb_spec version "free") as [Hfree|Hne]; [|done].
  by rewrite (Hdialect Hfree).
Qed.

End BoardScript.

Lemma column_board_scr_empty_witness :
  is_Some (diode (Config := demo_config) !! "1N4148") ∧
  ("free" = "free" → translate_board_coords (Functions := demo_functions) "" = "") ∧
  ∃ self warnings self',
    __init__ (text := byte_text) (config := demo_config)
      qwas "free" "MX" "1N4148" "No" = Ok (self, warnings) ∧
    column_board_scr (float := demo_float) (functions := demo_functions) self =
      Ok (Script "", self').
Proof.
  assert (is_Some (diode (Config := demo_config) !! "1N4148")) as Hdiode
    by (vm_compute; eauto).
  assert ("free" = "free" → translate_board_coords (Functions := demo_functions) "" = "")
    as Hdialect by (intros _; reflexivity).
  split; [exact Hdiode|]. split; [exact Hdialect|].
  exact (column_board_scr_empty (text := byte_text) (config := demo_config)
           (float := demo_float) (functions := demo_functions)
           qwas "free" "MX" "1N4148" "No" Hdiode Hdialect).
Defined.

(** The board fragment is empty because [max_col] is 0 after parsing.  The
    synthesis itself puts one empty group per slot into the board script:
    with two slots the groups are joined by one line feed. *)
Example board_fragment_of_two_slots :
  snd <$> column_scr_of (float := demo_float) (functions := demo_functions)
            (item := demo_item) qwas_keys 2 "pro" = Ok NL.
Proof. by vm_compute. Qed.

(** * Further properties of the code *)

(** ** Label translation and footprints *)

Section MoreTranslation.
Context {text : PyText}.

(** X1: [translate_label] returns for every keyboard and label (the renaming
    loop ends), the name it returns is not yet a key of the keyboard, and a
    warning is logged exactly when that name differs from the candidate
    name. *)
Theorem translate_label_returns_fresh self label :
  ∃ name warnings,
    translate_label self label = Ok (name, warnings) ∧
    has_key self name = false ∧
    (length warnings ≤ 1)%nat ∧
    (warnings = [] ↔ name = candidate_name label).
Proof.
  destruct (has_key self (candidate_name label)) eqn:Hc.
  - destruct (translate_label_fresh self label) as (name & warnings & Heq & Hfree).
    exists name, warnings. split; [done|]. split; [done|].
    revert Heq. unfold translate_label. rewrite Hc.
    destruct (isdigit (candidate_name label));
      match goal with
      | |- context [rename_loop ?f self ?k ?n ?i] => destruct (rename_loop f self k n i)
      end; simpl; intros [= <- <-] || (intros [=]);
      (split; [simpl; lia|]); (split; [done|]); intros ->; congruence.
  - exists (candidate_name label), []. rewrite translate_label_free by done.
    split; [done|]. split; [done|]. split; [simpl; lia|done].
Qed.

(** X2: only the bare label [*] is the keypad asterisk.  A label whose first
    line is [*] and that has further lines (the legend of the 8 key) goes
    through the symbol table and is named [8]: the special case compares the
    whole label, not its first line. *)
Theorem asterisk_with_second_line rest :
  upper "*" = "*" →
  candidate_name ("*" +:+ NL +:+ rest) = "8".
Proof.
  intros Hupper. unfold candidate_name.
  change (first_line ("*" +:+ NL +:+ rest)) with "*". rewrite Hupper.
  destruct (decide ("*" +:+ NL +:+ rest = "*")) as [Heq|_]; [discriminate Heq|done].
Qed.

End MoreTranslation.

Lemma asterisk_with_second_line_witness :
  upper (PyText := byte_text) "*" = "*" ∧
  candidate_name (text := byte_text) ("*" +:+ NL +:+ "8") = "8".
Proof.
  split; [reflexivity|].
  exact (asterisk_with_second_line (text := byte_text) "8" eq_refl).
Defined.

Lemma Qeq_bool_proper (x y z : Q) : (x == y)%Q → Qeq_bool x z = Qeq_bool y z.
Proof.
  intros Hxy. destruct (Qeq_bool y z) eqn:Hy.
  - apply Qeq_bool_iff. apply Qeq_bool_iff in Hy. by rewrite Hxy.
  - destruct (Qeq_bool x z) eqn:Hx; [|done].
    apply Qeq_bool_iff in Hx. rewrite Hxy in Hx. apply Qeq_bool_iff in Hx. congruence.
Qed.

(** X3: the footprint depends on the numeric value of the width only: two
    widths that are equal as numbers (the int 2 and the float 2.0, or two
    ways to write 2.25) select the same footprint. *)
Theorem switch_footprint_numeric self (width width' : Q) :
  (width == width')%Q →
  switch_footprint self width = switch_footprint self width'.
Proof.
  intros Heq. unfold switch_footprint, width_in, existsb.
  by rewrite !(Qeq_bool_proper width width' _ Heq).
Qed.

Lemma switch_footprint_numeric_witness :
  ((450 # 200) == 2.25)%Q ∧
  switch_footprint (keyboard_of ∅ [] 0 "MX") (450 # 200) =
  switch_footprint (keyboard_of ∅ [] 0 "MX") 2.25%Q.
Proof.
  assert ((450 # 200) == 2.25)%Q as Heq by reflexivity.
  split; [exact Heq|].
  exact (switch_footprint_numeric (keyboard_of ∅ [] 0 "MX") (450 # 200) 2.25%Q Heq).
Defined.

Lemma prefix_app (pat s : string) : String.prefix pat (pat +:+ s) = true.
Proof.
  induction pat as [|c pat IH]; [by destruct s|].
  change (String c pat +:+ s) with (String c (pat +:+ s)). simpl.
  by destruct (Ascii.ascii_dec c c).
Qed.

Lemma contains_prefix (pat s : string) : String.prefix pat s = true → contains pat s = true.
Proof. intros Hprefix. destruct s; unfold contains; fold contains; by rewrite Hprefix. Qed.

Lemma contains_app (pat before after : string) :
  contains pat (before +:+ pat +:+ after) = true.
Proof.
  induction before as [|c before IH].
  - change ("" +:+ pat +:+ after) with (pat +:+ after). apply contains_prefix, prefix_app.
  - change (String c before +:+ pat +:+ after) with (String c (before +:+ pat +:+ after)).
    simpl. rewrite IH. apply orb_true_r.
Qed.

(** The footprint is the base name, the bucket of the width and the LED
    marker. *)
Lemma switch_footprint_table self key_width :
  switch_footprint self key_width =
  led_variant (_switch_footprint self +:+ "-" +:+ lookup_bucket footprint_table key_width).
Proof.
  unfold switch_footprint, width_in, footprint_table, lookup_bucket, led_variant, existsb.
  repeat (destruct (Qeq_bool key_width _); [reflexivity|]; cbv [orb]).
  reflexivity.
Qed.

(** X4: a switch footprint whose name ends in [-LED] gives LED footprints
    for every width: the bucket suffix supplies the dash that completes the
    marker [-LED-], and the suffix [-LED] is appended after the bucket. *)
Theorem switch_footprint_led self (base : string) (key_width : Q) :
  _switch_footprint self = base +:+ "-LED" →
  switch_footprint self key_width =
  base +:+ "-LED-" +:+ lookup_bucket footprint_table key_width +:+ "-LED".
Proof.
  intros Hbase. rewrite switch_footprint_table. unfold led_variant.
  rewrite Hbase, !string_app_assoc.
  change ("-LED" +:+ "-" +:+ lookup_bucket footprint_table key_width)
    with ("-LED-" +:+ lookup_bucket footprint_table key_width).
  by rewrite contains_app.
Qed.

Lemma switch_footprint_led_witness :
  _switch_footprint (keyboard_of ∅ [] 0 "MX-LED") = "MX" +:+ "-LED" ∧
  switch_footprint (keyboard_of ∅ [] 0 "MX-LED") 6.25%Q = "MX-LED-6.25U-LED".
Proof.
  split; [reflexivity|].
  exact (switch_footprint_led (keyboard_of ∅ [] 0 "MX-LED") "MX" 6.25%Q eq_refl).
Defined.

(** ** The parser, record by record *)

Section ParseSteps.
Context {text : PyText}.

(** One record: the name comes from [translate_label], the entry is
    [parsed_key], and the record's name ends the last row. *)
Lemma parse_key_step st key earlier row :
  rows (ps_self st) = earlier ++ [row] →
  ps_col_num st = 0%nat →
  ∃ name warnings,
    translate_label (ps_self st) (kle_name key) = Ok (name, warnings) ∧
    has_key (ps_self st) name = false ∧
    parse_key st key = Ok (parse_step st key name warnings (earlier ++ [row ++ [name]])).
Proof.
  intros Hrows Hcol.
  destruct (translate_label_fresh (ps_self st) (kle_name key))
    as (name & warnings & Htr & Hfresh).
  exists name, warnings. split; [done|]. split; [done|].
  unfold parse_key. rewrite Htr. simpl. rewrite Hrows.
  unfold append_to_last_row. rewrite pop_last_snoc. simpl. rewrite Hcol.
  by replace (max_col (ps_self st) <? 0)%nat with false
    by (symmetry; apply Nat.ltb_ge; lia).
Qed.

(** An invariant of the parser: a property of the state and of the records
    parsed so far that the opening of a row and the parsing of a record
    keep is true at the end. *)
Lemma parse_keys_invariant (P : ParseState → list KleKey → Prop) :
  (∀ st done key earlier row name warnings,
     P st done →
     names_unique (ps_self st) →
     rows (ps_self st) = earlier ++ [row] →
     translate_label (ps_self st) (kle_name key) = Ok (name, warnings) →
     has_key (ps_self st) name = false →
     P (parse_step st key name warnings (earlier ++ [row ++ [name]])) (done ++ [key])) →
  ∀ keys st done earlier row,
    rows (ps_self st) = earlier ++ [row] →
    ps_col_num st = 0%nat →
    names_unique (ps_self st) →
    P st done →
    ∃ st' row',
      for_each parse_key st keys = Ok st' ∧
      rows (ps_self st') = earlier ++ [row'] ∧
      ps_col_num st' = 0%nat ∧
      names_unique (ps_self st') ∧
      P st' (done ++ keys).
Proof.
  intros Hstep keys.
  induction keys as [|key keys IH]; intros st done earlier row Hrows Hcol Hinv HP.
  - exists st, row. rewrite app_nil_r. by split_and!.
  - destruct (parse_key_step st key earlier row Hrows Hcol)
      as (name & warnings & Htr & Hfresh & Hkey).
    destruct (parse_key_spec st key earlier row Hrows Hcol Hinv)
      as (st1 & name1 & Hkey1 & Hrows1 & Hcol1 & Hinv1 & _).
    rewrite Hkey in Hkey1. injection Hkey1 as <-.
    destruct (IH (parse_step st key name warnings (earlier ++ [row ++ [name]]))
                (done ++ [key]) earlier (row ++ [name])) as (st' & row' & Hrun & H);
      [done..|by eapply Hstep|].
    exists st', row'. simpl for_each. rewrite Hkey. simpl.
    by rewrite <- app_assoc in H.
Qed.

Lemma parse_rows_invariant (P : ParseState → list KleKey → Prop) :
  (∀ st done, P st done → P (open_row st) done) →
  (∀ st done key earlier row name warnings,
     P st done →
     names_unique (ps_self st) →
     rows (ps_self st) = earlier ++ [row] →
     translate_label (ps_self st) (kle_name key) = Ok (name, warnings) →
     has_key (ps_self st) name = false →
     P (parse_step st key name warnings (earlier ++ [row ++ [name]])) (done ++ [key])) →
  ∀ grid st done,
    ps_col_num st = 0%nat →
    names_unique (ps_self st) →
    P st done →
    ∃ st',
      for_each parse_row st grid = Ok st' ∧
      names_unique (ps_self st') ∧
      P st' (done ++ concat grid).
Proof.
  intros Hopen Hstep grid.
  induction grid as [|row grid IH]; intros st done Hcol Hinv HP.
  - exists st. simpl. by rewrite app_nil_r.
  - assert (names_unique (ps_self (open_row st))) as Hinv0.
    { destruct Hinv as (Hnodup & Hdom & Hnames).
      assert (concat (rows (ps_self st) ++ [[]]) = concat (rows (ps_self st))) as Hconcat
        by (rewrite concat_app; simpl; by rewrite app_nil_r).
      split; [|split]; simpl; by rewrite ?Hconcat. }
    destruct (parse_keys_invariant P Hstep row (open_row st) done (rows (ps_self st)) [])
      as (st1 & row' & Hrun & Hrows1 & Hcol1 & Hinv1 & HP1); [done..|by apply Hopen|].
    destruct (IH st1 (done ++ row) Hcol1 Hinv1 HP1) as (st' & Hrest & Hinv' & HP').
    exists st'. simpl for_each.
    change (parse_row st row) with (for_each parse_key (open_row st) row).
    rewrite Hrun. simpl. split; [done|]. split; [done|]. by rewrite <- app_assoc in HP'.
Qed.

Context {config : Config}.

(** The invariants of the parser, for the keyboard the constructor returns. *)
Lemma init_invariant (P : ParseState → list KleKey → Prop)
    decoded version footprint diode_name led diode_value :
  diode !! diode_name = Some diode_value →
  (∀ st done, P st done → P (open_row st) done) →
  (∀ st done key earlier row name warnings,
     P st done →
     names_unique (ps_self st) →
     rows (ps_self st) = earlier ++ [row] →
     translate_label (ps_self st) (kle_name key) = Ok (name, warnings) →
     has_key (ps_self st) name = false →
     P (parse_step st key name warnings (earlier ++ [row ++ [name]])) (done ++ [key])) →
  P {| ps_self := blank_keyboard decoded version footprint diode_value led;
       ps_last_key := None; ps_next_key := default_next_key;
       ps_col_num := 0; ps_log := [] |} [] →
  ∃ st,
    __init__ decoded version footprint diode_name led = Ok (ps_self st, ps_log st) ∧
    names_unique (ps_self st) ∧
    P st (concat decoded).
Proof.
  intros Hdiode Hopen Hstep Hstart.
  unfold __init__. rewrite Hdiode. simpl. unfold parse_json. simpl.
  match goal with |- context [for_each parse_row ?s _] => set (st0 := s) end.
  destruct (parse_rows_invariant P Hopen Hstep decoded st0 [])
    as (st & -> & Hinv & HP); [done| |done|by exists st].
  split; [constructor|]. split.
  - intros name. simpl. rewrite lookup_empty. split; [by intros ?%elem_of_nil|by intros [? ?]].
  - intros name key. simpl. by rewrite lookup_empty.
Qed.

End ParseSteps.

Lemma concat_fmap_inv {A B} (f : A → B) (ls : list (list B)) (ks : list (list A)) :
  Forall2 (λ l k, length l = length k) ls ks →
  concat ls = f <$> concat ks →
  ls = (fmap f : list A → list B) <$> ks.
Proof.
  induction 1 as [|l k ls ks Hlen _ IH]; [done|].
  simpl. rewrite fmap_app. intros [-> Hrest]%app_inj_1; [|by rewrite length_fmap].
  by rewrite (IH Hrest).
Qed.

Lemma concat_snoc_last {A} (earlier : list (list A)) (row : list A) (x : A) :
  concat (earlier ++ [row ++ [x]]) = concat (earlier ++ [row]) ++ [x].
Proof. rewrite !concat_app. simpl. by rewrite !app_nil_r, app_assoc. Qed.

Lemma concat_lengths {A B} (ls : list (list A)) (ks : list (list B)) :
  Forall2 (λ l k, length l = length k) ls ks →
  length (concat ls) = length (concat ks).
Proof.
  induction 1 as [|l k ls ks Hlen _ IH]; [done|].
  simpl. rewrite !length_app. lia.
Qed.

Section ParsedKeyboard.
Context {text : PyText} {config : Config}.

(** X5: a grid whose labels have pairwise different candidate names is
    parsed without a rename: the constructor logs no warning, and the rows
    hold the candidate names of the labels, row by row and in order. *)
Theorem distinct_labels_keep_names decoded version footprint diode_name led :
  is_Some (diode !! diode_name) →
  NoDup ((λ key, candidate_name (kle_name key)) <$> concat decoded) →
  ∃ self,
    __init__ decoded version footprint diode_name led = Ok (self, []) ∧
    rows self =
    (fmap (λ key, candidate_name (kle_name key)) : list KleKey → list string) <$> decoded.
Proof.
  intros Hdiode Hnodup. pose proof Hdiode as [d Hd].
  set (name_of := λ key, candidate_name (kle_name key)).
  set (P := λ (st : ParseState) (done : list KleKey),
         (∃ rest, concat decoded = done ++ rest) →
         ps_log st = [] ∧ concat (rows (ps_self st)) = name_of <$> done).
  destruct (init_invariant P decoded version footprint diode_name led d Hd)
    as (st & Hinit & _ & HP).
  - intros st done HP Hprefix. destruct (HP Hprefix) as [Hlog Hnames].
    simpl. rewrite concat_app. simpl. by rewrite app_nil_r.
  - intros st done key earlier row name warnings HP (_ & Hdom & _) Hrows Htr Hfresh
      [rest Hrest].
    destruct HP as [Hlog Hnames]; [exists (key :: rest); by rewrite Hrest, <- app_assoc|].
    assert (has_key (ps_self st) (candidate_name (kle_name key)) = false) as Hfree.
    { apply has_key_false, eq_None_not_Some. rewrite <- Hdom, Hnames.
      fold name_of in Hnodup. rewrite Hrest, <- app_assoc, fmap_app in Hnodup.
      apply NoDup_app in Hnodup as (_ & Hnotin & _). intros Hin.
      apply (Hnotin _ Hin). simpl. left. }
    rewrite (translate_label_free _ _ Hfree) in Htr. injection Htr as <- <-.
    simpl. rewrite Hlog, concat_snoc_last, <- Hrows, Hnames, fmap_app. done.
  - intros _. done.
  - destruct (init_spec decoded version footprint diode_name led Hdiode)
      as (self & warnings & Hinit' & Hall & _).
    rewrite Hinit in Hinit'. injection Hinit' as <- <-.
    destruct HP as [Hlog Hnames]; [exists []; by rewrite app_nil_r|].
    exists (ps_self st). rewrite Hinit, Hlog. split; [done|].
    by apply concat_fmap_inv.
Qed.

(** X6: every name in the rows is the key of the entry constructed for the
    record at the same place of the grid (rows read one after the other):
    the entry has the footprint selected for the record's width, the
    record's grid and millimetre coordinates, the keyboard's settings, the
    default placement, and as its previous key the name just before it
    (none for the first key; the last key of the row above for the first key
    of a row).  The rows have the lengths of the rows of the grid. *)
Theorem entries_follow_grid decoded version footprint diode_name led :
  is_Some (diode !! diode_name) →
  ∃ self warnings,
    __init__ decoded version footprint diode_name led = Ok (self, warnings) ∧
    Forall2 (λ names row, length names = length row) (rows self) decoded ∧
    ∀ i name key,
      concat (rows self) !! i = Some name →
      concat decoded !! i = Some key →
      items self !! name =
      Some (parsed_key self name (previous (concat (rows self)) i) default_next_key key).
Proof.
  intros Hdiode. pose proof Hdiode as [d Hd].
  set (P := λ (st : ParseState) (done : list KleKey),
         let names := concat (rows (ps_self st)) in
         ps_next_key st = default_next_key ∧
         ps_last_key st = last names ∧
         length names = length done ∧
         ∀ i name key,
           names !! i = Some name →
           done !! i = Some key →
           items (ps_self st) !! name =
           Some (parsed_key (ps_self st) name (previous names i) default_next_key key)).
  destruct (init_invariant P decoded version footprint diode_name led d Hd)
    as (st & Hinit & _ & _ & _ & Hlen & Hentries).
  - intros st done (Hnext & Hlast & Hlen & Hentries).
    unfold P. simpl. rewrite concat_app. simpl. rewrite app_nil_r. by split_and!.
  - intros st done key earlier row name warnings (Hnext & Hlast & Hlen & Hentries)
      (_ & Hdom & _) Hrows Htr Hfresh.
    unfold P. simpl. rewrite concat_snoc_last, <- Hrows.
    set (names := concat (rows (ps_self st))) in *.
    split; [done|]. split; [by rewrite last_snoc|].
    split; [by rewrite !length_app, Hlen|].
    intros i name' key' Hname Hkey.
    destruct (decide (i < length names)%nat) as [Hlt|Hge].
    + rewrite lookup_app_l in Hname by done.
      rewrite lookup_app_l in Hkey by (by rewrite <- Hlen).
      assert (name' ≠ name) as Hne.
      { intros ->. apply has_key_false in Hfresh.
        assert (is_Some (items (ps_self st) !! name)) as [? ?]; [|congruence].
        apply Hdom. by eapply list_elem_of_lookup_2. }
      rewrite lookup_insert_ne by done. rewrite (Hentries i name' key' Hname Hkey).
      do 2 f_equal. destruct i as [|j]; [done|]. simpl. rewrite lookup_app_l; [done|lia].
    + assert (i = length names) as ->.
      { apply lookup_lt_Some in Hname. rewrite length_app in Hname. simpl in Hname. lia. }
      rewrite list_lookup_middle in Hname by done. injection Hname as <-.
      rewrite Hlen, list_lookup_middle in Hkey by done. injection Hkey as <-.
      rewrite lookup_insert_eq, Hnext, Hlast. do 2 f_equal.
      rewrite last_lookup. destruct (length names) as [|n] eqn:Hn.
      { simpl. by rewrite (nil_length_inv _ Hn). }
      simpl. rewrite lookup_app_l; [done|lia].
  - unfold P. simpl. by split_and!.
  - destruct (init_spec decoded version footprint diode_name led Hdiode)
      as (self & warnings & Hinit' & Hshape & _).
    rewrite Hinit in Hinit'. injection Hinit' as <- <-.
    exists (ps_self st), (ps_log st). by split_and!.
Qed.

End ParsedKeyboard.

Lemma distinct_labels_keep_names_witness :
  is_Some (diode (Config := demo_config) !! "1N4148") ∧
  NoDup ((λ key, candidate_name (text := byte_text) (kle_name key)) <$> concat qwas) ∧
  ∃ self,
    __init__ (text := byte_text) (config := demo_config) qwas "pro" "MX" "1N4148" "No" =
    Ok (self, []) ∧
    rows self = [["Q"; "W"]; ["A"; "S"]].
Proof.
  assert (is_Some (diode (Config := demo_config) !! "1N4148")) as Hdiode
    by (vm_compute; eauto).
  assert (NoDup ((λ key, candidate_name (text := byte_text) (kle_name key)) <$> concat qwas))
    as Hnodup by (apply (bool_decide_unpack _); vm_compute; exact I).
  split; [exact Hdiode|]. split; [exact Hnodup|].
  destruct (distinct_labels_keep_names (text := byte_text) (config := demo_config)
              qwas "pro" "MX" "1N4148" "No" Hdiode Hnodup) as (self & Hinit & Hrows).
  exists self. split; [exact Hinit|]. rewrite Hrows. reflexivity.
Defined.

Lemma entries_follow_grid_witness :
  is_Some (diode (Config := demo_config) !! "1N4148") ∧
  ∃ self warnings,
    __init__ (text := byte_text) (config := demo_config) qwas "pro" "MX" "1N4148" "No" =
    Ok (self, warnings) ∧
    length (concat (rows self)) = 4%nat.
Proof.
  assert (is_Some (diode (Config := demo_config) !! "1N4148")) as Hdiode
    by (vm_compute; eauto).
  split; [exact Hdiode|].
  destruct (entries_follow_grid (text := byte_text) (config := demo_config)
              qwas "pro" "MX" "1N4148" "No" Hdiode) as (self & warnings & Hinit & Hshape & _).
  exists self, warnings. split; [exact Hinit|].
  rewrite (concat_lengths _ _ Hshape). reflexivity.
Defined.

(** ** The traversal of [column_scr] *)

Section Traversal.
Context {K F : Type} {float : PyFloat F} {functions : Functions F} {item : RowItem K F}.

#[local] Arguments taken : simpl never.
#[local] Arguments remaining : simpl never.

(** Whatever else it does, the body of [for row in rows] pops the row. *)
Lemma column_row_remaining column (st st' : ColumnState) (row row' : list K) :
  column_row column st row = Ok (st', row') →
  row' = from_option snd row (pop_side column row).
Proof.
  unfold column_row. intros Hrow.
  destruct (pop_side column row) as [[key rest]|]; simpl in *; [|by simplify_eq].
  repeat (case_match; simpl in *; simplify_eq); try done;
    destruct (net_triplet _ key); simpl in *; by simplify_eq.
Qed.

Lemma column_rows_remaining column (rows : list (list K)) : ∀ (st st' : ColumnState) rows',
  column_rows column st rows = Ok (st', rows') → rows' = remaining column rows.
Proof.
  induction rows as [|row rows IH]; intros st st' rows'; [by intros [= _ <-]|].
  simpl. destruct (column_row column st row) as [[st1 row1]|] eqn:Hrow; simpl; [|done].
  destruct (column_rows column st1 rows) as [[st2 rows2]|] eqn:Hrows; simpl; [|done].
  intros [= _ <-]. rewrite remaining_cons.
  rewrite (column_row_remaining _ _ _ _ _ Hrow), (IH _ _ _ Hrows).
  by destruct (pop_side column row) as [[? ?]|].
Qed.

Lemma column_passes_rows columns : ∀ (st st' : ColumnState) (rows rows' : list (list K)),
  for_each column_pass (st, rows) columns = Ok (st', rows') →
  rows' = foldl (λ rows column, remaining column rows) rows columns.
Proof.
  induction columns as [|column columns IH]; intros st st' rows rows'; [by intros [= _ <-]|].
  simpl for_each. unfold column_pass at 1.
  match goal with |- context [column_rows column ?s rows] => set (st0 := s) end.
  destruct (column_rows column st0 rows) as [[st1 rows1]|] eqn:Hrows; simpl; [|done].
  intros Hrest. rewrite (IH _ _ _ _ Hrest). by rewrite (column_rows_remaining _ _ _ _ _ Hrows).
Qed.

Lemma pop_side_length {A} column (l l' : list A) x :
  pop_side column l = Some (x, l') → length l = S (length l').
Proof. intros Hpop%pop_side_Permutation. by rewrite Hpop. Qed.

Lemma remaining_lengths column (rows : list (list K)) :
  length <$> remaining column rows = (λ row, length row - 1)%nat <$> rows.
Proof.
  induction rows as [|row rows IH]; [done|].
  rewrite remaining_cons.
  destruct (pop_side column row) as [[key rest]|] eqn:Hpop; rewrite !fmap_cons, IH; f_equal.
  - apply pop_side_length in Hpop. lia.
  - apply pop_side_None in Hpop. by subst.
Qed.

Lemma passes_lengths columns : ∀ rows : list (list K),
  length <$> foldl (λ rows column, remaining column rows) rows columns =
  (λ row, length row - length columns)%nat <$> rows.
Proof.
  induction columns as [|column columns IH]; intros rows; simpl.
  - apply list_fmap_ext. intros _ row _. lia.
  - rewrite IH.
    transitivity ((λ n, n - length columns)%nat <$> (length <$> remaining column rows)).
    { by rewrite <- list_fmap_compose. }
    rewrite remaining_lengths, <- list_fmap_compose.
    apply list_fmap_ext. intros _ row _. simpl. lia.
Qed.

(** A traversal index moves keys out of the rows; none is dropped. *)
Lemma taken_remaining_Permutation column (rows : list (list K)) :
  taken column rows ++ concat (remaining column rows) ≡ₚ concat rows.
Proof.
  induction rows as [|row rows IH]; [done|].
  rewrite taken_cons, remaining_cons.
  destruct (pop_side column row) as [[key rest]|] eqn:Hpop; simpl.
  - apply pop_side_Permutation in Hpop. rewrite Hpop. simpl. f_equiv.
    rewrite <- IH. by rewrite !app_assoc, (Permutation_app_comm rest).
  - rewrite app_assoc, (Permutation_app_comm _ row), <- app_assoc. by f_equiv.
Qed.

Lemma slot_assignment_keys columns : ∀ row_positions (rows : list (list K)),
  (length columns ≤ length row_positions)%nat →
  concat (slot_assignment columns row_positions rows).*2 ++
    concat (foldl (λ rows column, remaining column rows) rows columns) ≡ₚ concat rows.
Proof.
  induction columns as [|column columns IH]; intros row_positions rows Hlen; [done|].
  simpl. pose proof (taken_remaining_Permutation column rows) as Hperm.
  destruct (taken column rows) as [|key keys] eqn:Htaken.
  - rewrite IH by (simpl in Hlen; lia). by rewrite <- Hperm.
  - destruct (pop_side column row_positions) as [[slot rest]|] eqn:Hpop;
      [|apply pop_side_None in Hpop; subst; simpl in Hlen; lia].
    apply pop_side_length in Hpop. simpl.
    rewrite <- Hperm. simpl. f_equiv. rewrite <- app_assoc. f_equiv.
    apply IH. simpl in Hlen. lia.
Qed.


(** X7: the traversal of [column_scr] loses no key and wires none twice.
    When the keys of each slot can be linked it returns; the slots of the
    schematic dict are those its traversal indices claimed; the keys
    assigned to slots together with the keys left in the copied rows are the
    keys of the rows; and every row is left with the keys beyond the first
    [max_col] taken from it, so that a key stays unwired exactly when its
    row is longer than [max_col]. *)
Theorem traverse_keeps_every_key (rows : list (list K)) max_col :
  slots_wirable rows max_col →
  ∃ st rows',
    traverse rows max_col = Ok (st, rows') ∧
    let slots := slot_assignment (seq 1 max_col) (seq 1 max_col) rows in
    (∀ slot, is_Some (cs_schematic_columns st !! slot) ↔ slot ∈ slots.*1) ∧
    concat slots.*2 ++ concat rows' ≡ₚ concat rows ∧
    length <$> rows' = (λ row, length row - max_col)%nat <$> rows.
Proof.
  intros Hrows.
  destruct (traverse_spec rows max_col Hrows) as (st & rows' & Hrun & _ & Hin & Hout).
  exists st, rows'. split; [done|].
  pose proof (column_passes_rows _ _ _ _ _ Hrun) as ->.
  split_and!.
  - intros slot. split.
    + intros Hsome.
      destruct (decide (slot ∈ (slot_assignment (seq 1 max_col) (seq 1 max_col) rows).*1))
        as [|Hno]; [done|].
      destruct (Hout slot Hno) as [Hnone _]. rewrite Hnone in Hsome. by destruct Hsome.
    + intros ([slot' keys] & -> & Hpair)%list_elem_of_fmap.
      destruct (Hin _ _ Hpair) as (_ & entries & Hentries & _). simpl. eauto.
  - apply slot_assignment_keys. by rewrite !length_seq.
  - by rewrite passes_lengths, length_seq.
Qed.

End Traversal.

Lemma traverse_keeps_every_key_witness :
  slots_wirable (item := demo_item) ragged_rows 2 ∧
  ∃ st rows',
    traverse (float := demo_float) (functions := demo_functions) (item := demo_item)
      ragged_rows 2 = Ok (st, rows') ∧
    length <$> rows' = [1; 0]%nat.
Proof.
  assert (slots_wirable (item := demo_item) ragged_rows 2) as Hwired
    by (unfold slots_wirable; simpl;
        repeat (constructor; [intros _; repeat constructor|]); constructor).
  split; [exact Hwired|].
  destruct (traverse_keeps_every_key (float := demo_float) (functions := demo_functions)
              (item := demo_item) ragged_rows 2 Hwired)
    as (st & rows' & Hrun & _ & _ & Hleft).
  exists st, rows'. split; [exact Hrun|exact Hleft].
Defined.

(** ** Rectangular grids *)

Lemma pop_side_seq column a m :
  pop_side column (seq a (S m)) =
  Some (if Nat.even column then a else (a + m)%nat,
        seq (if Nat.even column then S a else a) m).
Proof.
  unfold pop_side. destruct (Nat.even column); [done|].
  rewrite seq_S. apply pop_last_snoc.
Qed.

Section Rectangular.
Context {K F : Type} {float : PyFloat F} {functions : Functions F} {item : RowItem K F}.

#[local] Arguments taken : simpl never.
#[local] Arguments remaining : simpl never.







End Rectangular.


(** ** The board fragment of the columns *)

Section BoardLines.
Context {K F : Type} {float : PyFloat F} {functions : Functions F} {item : RowItem K F}.

Lemma sorted_columns_length (columns : gmap nat (list template)) :
  length (sorted_columns columns) = size columns.
Proof.
  unfold sorted_columns. rewrite merge_sort_Permutation.
  by rewrite <- size_dom.
Qed.

Lemma fmap_blank {A} (f : A → string) (l : list A) :
  (∀ x, x ∈ l → f x = "") → f <$> l = replicate (length l) "".
Proof.
  induction l as [|x l IH]; intros Hblank; [done|].
  rewrite fmap_cons, (Hblank x) by left. simpl. f_equal.
  apply IH. intros y Hy. apply Hblank. by right.
Qed.

(** X9: [column_scr] never writes a board statement.  Whenever the keys of
    each slot can be linked, on any rows and for any [max_col], the board
    fragment it stores is one empty group per schematic group,
    joined with line feeds: with [n] groups it is a string of [n - 1] line
    feeds (passed through [translate_board_coords] for the dialect
    [free]), so the board script wires no column. *)
Theorem column_board_scr_blank (rows : list (list K)) max_col version :
  slots_wirable rows max_col →
  ∃ st rows' schematic,
    traverse rows max_col = Ok (st, rows') ∧
    column_scr_of rows max_col version =
      Ok (schematic,
          let blank := join NL (replicate (size (cs_schematic_columns st)) "") in
          if String.eqb version "free" then translate_board_coords blank else blank).
Proof.
  intros Hrows.
  destruct (traverse_spec rows max_col Hrows) as (st & rows' & Hrun & _ & Hin & Hout).
  assert (∀ slot, slot ∈ sorted_columns (cs_schematic_columns st) →
            is_Some (cs_schematic_columns st !! slot) ∧
            cs_board_columns st !! slot = Some []) as Hslots.
  { intros slot Hslot%sorted_columns_elem. split; [done|].
    destruct (decide (slot ∈ (slot_assignment (seq 1 max_col) (seq 1 max_col) rows).*1))
      as [Hyes|Hno].
    - apply list_elem_of_fmap in Hyes as ([slot' keys] & -> & Hpair).
      by destruct (Hin _ _ Hpair) as (_ & entries & _ & _ & Hboard).
    - destruct (Hout slot Hno) as [Hnone _]. rewrite Hnone in Hslot. by destruct Hslot. }
  exists st, rows'. eexists. split; [done|].
  unfold column_scr_of. rewrite Hrun. simpl.
  rewrite renumber_spec.
  - simpl. do 2 f_equal.
    rewrite (fmap_blank _ (sorted_columns (cs_schematic_columns st))).
    + by rewrite sorted_columns_length.
    + intros slot Hslot. destruct (Hslots slot Hslot) as [_ Hboard].
      by rewrite (lookup_total_correct _ _ _ Hboard).
  - intros slot Hslot. destruct (Hslots slot Hslot) as [? Hboard].
    split; [done|]. by rewrite Hboard.
Qed.

End BoardLines.

Lemma column_board_scr_blank_witness :
  slots_wirable (item := demo_item) ragged_rows 3 ∧
  ∃ st rows' schematic,
    traverse (float := demo_float) (functions := demo_functions) (item := demo_item)
      ragged_rows 3 = Ok (st, rows') ∧
    column_scr_of (float := demo_float) (functions := demo_functions) (item := demo_item)
      ragged_rows 3 "pro" =
      Ok (schematic, join NL (replicate (size (cs_schematic_columns st)) "")).
Proof.
  assert (slots_wirable (item := demo_item) ragged_rows 3) as Hwired
    by (unfold slots_wirable; simpl;
        repeat (constructor; [intros _; repeat constructor|]); constructor).
  split; [exact Hwired|].
  destruct (column_board_scr_blank (float := demo_float) (functions := demo_functions)
              (item := demo_item) ragged_rows 3 "pro" Hwired)
    as (st & rows' & schematic & Hrun & Hscr).
  exists st, rows', schematic. split; [exact Hrun|exact Hscr].
Defined.

(** ** Iteration and the generated scripts *)


(** Iteration looks every name of the rows up in the dict; it returns when
    every name is a key. *)
Lemma map_getkey_spec self (names : list string) :
  (∀ name, name ∈ names → is_Some (items self !! name)) →
  ∃ keys,
    map_result (getkey self) names = Ok keys ∧
    Forall2 (λ key name, items self !! name = Some key) keys names.
Proof.
  induction names as [|name names IH]; intros Hnames.
  - exists []. split; [done|constructor].
  - destruct (Hnames name) as [key Hkey]; [left|].
    destruct IH as (keys & Hrun & Hall); [intros ? ?; apply Hnames; by right|].
    assert (getkey self name = Ok key) as Hget by (unfold getkey; by rewrite Hkey).
    exists (key :: keys). cbn [map_result]. rewrite Hget, Hrun.
    split; [done|by constructor].
Qed.

Lemma iter_spec self :
  names_unique self →
  ∃ keys,
    __iter__ self = Ok keys ∧
    Forall2 (λ key name, items self !! name = Some key) keys (concat (rows self)) ∧
    kk_name <$> keys = concat (rows self).
Proof.
  intros (_ & Hdom & Hname).
  destruct (map_getkey_spec self (concat (rows self))) as (keys & Hrun & Hall).
  { intros name. apply Hdom. }
  exists keys. split; [done|]. split; [done|].
  clear Hrun Hdom. induction Hall as [|key name keys names Hkey _ IH]; [done|].
  rewrite fmap_cons, IH. f_equal. by apply Hname.
Qed.

Section Iteration.
Context {text : PyText} {config : Config}.

(** X10: iterating over a constructed keyboard never raises [KeyError]:
    it yields the entries of the dict in the order of the rows, every entry
    once and no other value, one for each record of the decoded grid. *)
Theorem iter_constructed decoded version footprint diode_name led :
  is_Some (diode !! diode_name) →
  ∃ self warnings keys,
    __init__ decoded version footprint diode_name led = Ok (self, warnings) ∧
    __iter__ self = Ok keys ∧
    kk_name <$> keys = concat (rows self) ∧
    length keys = length (concat decoded) ∧
    NoDup keys ∧
    ∀ key, key ∈ keys ↔ ∃ name, items self !! name = Some key.
Proof.
  intros Hdiode.
  destruct (init_spec decoded version footprint diode_name led Hdiode)
    as (self & warnings & Hinit & Hlens & Hunique & _).
  destruct (iter_spec self Hunique) as (keys & Hiter & Hall & Hnames).
  destruct Hunique as (Hnodup & Hdom & _).
  exists self, warnings, keys. split_and!; [done..| | | ].
  - rewrite <- (concat_lengths _ _ Hlens), <- Hnames. by rewrite length_fmap.
  - apply (NoDup_fmap_1 kk_name). by rewrite Hnames.
  - intros key. split.
    + intros Hin. apply list_elem_of_lookup in Hin as [i Hi].
      destruct (Forall2_lookup_l _ _ _ _ _ Hall Hi) as (name & _ & Hkey). eauto.
    + intros [name Hkey].
      assert (name ∈ concat (rows self)) as Hin by (apply Hdom; eauto).
      apply list_elem_of_lookup in Hin as [i Hi].
      destruct (Forall2_lookup_r _ _ _ _ _ Hall Hi) as (key' & Hi' & Hkey').
      assert (key' = key) as -> by congruence.
      by eapply list_elem_of_lookup_2.
Qed.

End Iteration.

Lemma iter_constructed_witness :
  is_Some (diode (Config := demo_config) !! "1N4148") ∧
  ∃ self warnings keys,
    __init__ (text := byte_text) (config := demo_config) qwas "pro" "MX" "1N4148" "No" =
    Ok (self, warnings) ∧
    __iter__ self = Ok keys ∧
    length keys = 4%nat.
Proof.
  assert (is_Some (diode (Config := demo_config) !! "1N4148")) as Hdiode
    by (vm_compute; eauto).
  split; [exact Hdiode|].
  destruct (iter_constructed (text := byte_text) (config := demo_config)
              qwas "pro" "MX" "1N4148" "No" Hdiode)
    as (self & warnings & keys & Hinit & Hiter & _ & Hlen & _).
  exists self, warnings, keys. split; [exact Hinit|]. split; [exact Hiter|exact Hlen].
Defined.

Section GeneratedScripts.
Context {scripts : KeyScripts}.
Context {F : Type} {float : PyFloat F} {functions : Functions F}.

(** With [max_col = 0] both column properties run [column_scr] at every
    access, since the empty script it stores is false, and return ['']. *)
Lemma column_properties_blank self :
  max_col self = 0%nat →
  (eagle_version self = "free" → translate_board_coords "" = "") →
  cache_truthy (_column_schematic_scr self) = false →
  cache_truthy (_column_board_scr self) = false →
  column_schematic_scr self = Ok (Script "", set_column_scr "" "" self) ∧
  column_board_scr self = Ok (Script "", set_column_scr "" "" self).
Proof.
  intros Hmax Hdialect Hschematic Hboard.
  assert (column_scr self = Ok (set_column_scr "" "" self)) as Hscr.
  { unfold column_scr. rewrite Hmax, (column_scr_of_no_columns (K := string)). simpl.
    destruct (String.eqb_spec (eagle_version self) "free") as [Hfree|Hne]; [|done].
    by rewrite (Hdialect Hfree). }
  unfold column_schematic_scr, column_board_scr.
  by rewrite Hschematic, Hboard, Hscr.
Qed.

Lemma iter_set_column_scr schematic board self :
  __iter__ (set_column_scr schematic board self) = __iter__ self.
Proof. done. Qed.

(** What [generate] returns for a keyboard with [max_col = 0] whose script
    attributes are as [__init__] leaves them. *)
Lemma generate_no_columns self keys :
  max_col self = 0%nat →
  (eagle_version self = "free" → translate_board_coords "" = "") →
  _column_schematic_scr self = Unset →
  _column_board_scr self = Unset →
  __iter__ self = Ok keys →
  ∃ self',
    generate (new_scripts self) =
    Ok ((join NL [schematic_preamble;
                  join NL (key_schematic_script (items self) <$> keys);
                  ""; schematic_footer],
         join NL [board_preamble;
                  join NL (key_board_script (items self) <$> keys);
                  ""; board_footer]),
        self').
Proof.
  intros Hmax Hdialect Hschematic Hboard Hiter.
  destruct (column_properties_blank self Hmax Hdialect) as [Hcs _];
    [by rewrite Hschematic|by rewrite Hboard|].
  destruct (column_properties_blank (set_column_scr "" "" self) Hmax Hdialect)
    as [_ Hcb]; [done..|].
  unfold generate, schematic_scr, key_schematic_scr. simpl.
  rewrite Hiter. simpl. rewrite Hcs. simpl.
  unfold board_scr, key_board_scr. simpl.
  rewrite iter_set_column_scr, Hiter. simpl. rewrite Hcb. simpl.
  eexists. reflexivity.
Qed.

End GeneratedScripts.

Section Generate.
Context {text : PyText} {config : Config} {scripts : KeyScripts}.
Context {F : Type} {float : PyFloat F} {functions : Functions F}.

(** X11: the scripts [generate] returns for a constructed keyboard hold,
    between preamble and footer, the fragments of the keys in the order of
    the rows and an empty column script: since parsing leaves [max_col = 0],
    neither the schematic nor the board script wires a column, whatever the
    grid.  ([translate_board_coords] is taken to map the empty script to
    itself; it is used for the dialect [free] only.) *)
Theorem generate_constructed decoded version footprint diode_name led :
  is_Some (diode !! diode_name) →
  (version = "free" → translate_board_coords "" = "") →
  ∃ self warnings keys self',
    __init__ decoded version footprint diode_name led = Ok (self, warnings) ∧
    __iter__ self = Ok keys ∧
    generate (new_scripts self) =
    Ok ((join NL [schematic_preamble;
                  join NL (key_schematic_script (items self) <$> keys);
                  ""; schematic_footer],
         join NL [board_preamble;
                  join NL (key_board_script (items self) <$> keys);
                  ""; board_footer]),
        self').
Proof.
  intros Hdiode Hdialect.
  destruct (init_spec decoded version footprint diode_name led Hdiode)
    as (self & warnings & Hinit & _ & Hunique & Hmax & Hversion & Hboard & Hschematic).
  destruct (iter_spec self Hunique) as (keys & Hiter & _).
  destruct (generate_no_columns self keys Hmax) as [self' Hgen]; [|done..|].
  { by rewrite Hversion. }
  by exists self, warnings, keys, self'.
Qed.

Lemma schematic_scr_cached (self self' : Scripts) script :
  schematic_scr self = Ok (script, self') →
  cache_truthy (_schematic_scr self') = true ∧
  script_text (_schematic_scr self') = script.
Proof.
  unfold schematic_scr.
  destruct (cache_truthy (_schematic_scr self)) eqn:Hcache; simpl.
  { by intros [= <- <-]. }
  destruct (key_schematic_scr self) as [[keys s1]|]; simpl; [|done].
  destruct (column_schematic_scr (keyboard s1)) as [[columns kb]|]; simpl; [|done].
  by intros [= <- <-].
Qed.

Lemma board_scr_cached (self self' : Scripts) script :
  board_scr self = Ok (script, self') →
  cache_truthy (_board_scr self') = true ∧
  script_text (_board_scr self') = script ∧
  _schematic_scr self' = _schematic_scr self.
Proof.
  unfold board_scr.
  destruct (cache_truthy (_board_scr self)) eqn:Hcache; simpl.
  { by intros [= <- <-]. }
  unfold key_board_scr.
  destruct (cache_truthy (_key_board_scr self)); simpl.
  - destruct (column_board_scr (keyboard self)) as [[columns kb]|]; simpl; [|done].
    by intros [= <- <-].
  - destruct (__iter__ (keyboard self)) as [keys|]; simpl; [|done].
    destruct (column_board_scr (keyboard self)) as [[columns kb]|]; simpl; [|done].
    by intros [= <- <-].
Qed.

(** X12: the whole scripts are computed once.  When [generate] returns, a
    second call returns the same two scripts and changes no attribute: both
    start with a preamble, so the stored scripts are never false and are
    returned as they are. *)
Theorem generate_twice (self self' : Scripts) generated :
  generate self = Ok (generated, self') →
  generate self' = Ok (generated, self').
Proof.
  unfold generate.
  destruct (schematic_scr self) as [[schematic s1]|] eqn:Hschematic; simpl; [|done].
  destruct (board_scr s1) as [[board s2]|] eqn:Hboard; simpl; [|done].
  intros [= <- <-].
  destruct (schematic_scr_cached _ _ _ Hschematic) as [Hs1 Hs2].
  destruct (board_scr_cached _ _ _ Hboard) as (Hb1 & Hb2 & Hsame).
  unfold schematic_scr. rewrite Hsame, Hs1. simpl.
  unfold board_scr. rewrite Hb1. simpl. by rewrite Hsame, Hs2, Hb2.
Qed.

End Generate.

Lemma generate_constructed_witness :
  is_Some (diode (Config := demo_config) !! "1N4148") ∧
  ("pro" = "free" → translate_board_coords (Functions := demo_functions) "" = "") ∧
  ∃ self warnings generated self',
    __init__ (text := byte_text) (config := demo_config) qwas "pro" "MX" "1N4148" "No" =
    Ok (self, warnings) ∧
    generate (scripts := demo_scripts) (float := demo_float) (functions := demo_functions)
      (new_scripts self) = Ok (generated, self').
Proof.
  assert (is_Some (diode (Config := demo_config) !! "1N4148")) as Hdiode
    by (vm_compute; eauto).
  assert ("pro" = "free" → translate_board_coords (Functions := demo_functions) "" = "")
    as Hdialect by reflexivity.
  split; [exact Hdiode|]. split; [exact Hdialect|].
  destruct (generate_constructed (text := byte_text) (config := demo_config)
              (scripts := demo_scripts) (float := demo_float) (functions := demo_functions)
              qwas "pro" "MX" "1N4148" "No" Hdiode Hdialect)
    as (self & warnings & keys & self' & Hinit & _ & Hgen).
  exists self, warnings. eexists _, self'. split; [exact Hinit|exact Hgen].
Defined.

Lemma generate_twice_witness :
  ∃ generated self',
    generate (scripts := demo_scripts) (float := demo_float) (functions := demo_functions)
      (new_scripts keyboard_with_5) = Ok (generated, self') ∧
    generate (scripts := demo_scripts) (float := demo_float) (functions := demo_functions)
      self' = Ok (generated, self').
Proof.
  destruct (generate (scripts := demo_scripts) (float := demo_float)
              (functions := demo_functions) (new_scripts keyboard_with_5))
    as [[generated self']|e] eqn:Hgen; [|vm_compute in Hgen; discriminate].
  exists generated, self'. split; [reflexivity|].
  exact (generate_twice (scripts := demo_scripts) (float := demo_float)
           (functions := demo_functions) _ _ _ Hgen).
Defined.

(** ** Construction: the diode table and the settings *)

Section Settings.
Context {text : PyText} {config : Config}.

(** X13: construction depends on the configuration only through the diode
    table.  A diode type that is not in the table raises [KeyError] of that
    type before anything is parsed; with any other, construction returns,
    and the keyboard holds the decoded layout, the dialect and the footprint
    base as given, the table's value for the diode, the LED setting in
    lower case ([None], Python's [False], for any spelling of [no]), and
    [max_col = 0]. *)
Theorem init_settings decoded version footprint diode_name led :
  match diode !! diode_name with
  | None =>
      __init__ decoded version footprint diode_name led = Raise (KeyError diode_name)
  | Some diode_value =>
      ∃ self warnings,
        __init__ decoded version footprint diode_name led = Ok (self, warnings) ∧
        layout self = decoded ∧
        eagle_version self = version ∧
        _switch_footprint self = footprint ∧
        diode_type self = diode_value ∧
        smd_led self = (if String.eqb (lower led) "no" then None else Some (lower led)) ∧
        max_col self = 0%nat
  end.
Proof.
  unfold __init__. destruct (diode !! diode_name) as [diode_value|]; [|done]. simpl.
  match goal with |- context [parse_json ?s] => set (self0 := s) end.
  destruct (parse_json_spec self0) as (self & warnings & parsed & -> & _ & _ & _ & Hsame).
  { split; [constructor|]. split.
    - intros name. simpl. rewrite lookup_empty. split; [by intros ?%elem_of_nil|by intros [? ?]].
    - intros name key. simpl. by rewrite lookup_empty. }
  exists self, warnings. unfold same_settings in Hsame. simpl in Hsame.
  destruct_and!. by split_and!.
Qed.

End Settings.

(** ** Rows of names in [column_scr] *)

Section NamesHaveNoPin.
Context {F : Type} {float : PyFloat F} {functions : Functions F}.

#[local] Arguments taken : simpl never.

(** Once a name that is not empty is the key above, the next row that
    yields a key asks it for its column pin. *)
Lemma column_rows_names_claimed column (rows : list (list string)) :
  ∀ (st : ColumnState (K := string)) last,
    cs_key st = Some last →
    cs_last_key st = Some last →
    last ≠ "" →
    position_truthy (cs_row_position st) = true →
    taken column rows ≠ [] →
    column_rows column st rows = Raise (AttributeError "column_pin_scr").
Proof.
  induction rows as [|row rows IH]; intros st last Hkey Hlast Hne Hpos Htaken; [done|].
  rewrite taken_cons in Htaken. cbn [column_rows]. unfold column_row.
  destruct (pop_side column row) as [[key rest]|].
  - rewrite Hpos, Hlast. simpl.
    assert (String.eqb last "" = false) as -> by (by apply String.eqb_neq).
    simpl. by destruct (cs_schematic_columns st !! _).
  - simpl. rewrite (IH _ last); [done|simpl; congruence..|done|done|done].
Qed.

Lemma column_rows_names_fresh column (rows : list (list string)) :
  ∀ (st : ColumnState (K := string)) slot row_positions first second more,
    cs_key st = None →
    cs_last_key st = None →
    cs_row_position st = None →
    pop_side column (cs_row_positions st) = Some (S slot, row_positions) →
    taken column rows = first :: second :: more →
    first ≠ "" →
    column_rows column st rows = Raise (AttributeError "column_pin_scr").
Proof.
  induction rows as [|row rows IH];
    intros st slot row_positions first second more Hkey Hlast Hpos Hpool Htaken Hne; [done|].
  rewrite taken_cons in Htaken. cbn [column_rows]. unfold column_row.
  destruct (pop_side column row) as [[key rest]|].
  - injection Htaken as -> Htaken.
    rewrite Hpos. simpl. rewrite Hpool, Hlast.
    destruct (cs_schematic_columns st !! S slot); simpl;
      (rewrite (column_rows_names_claimed _ _ _ first); [done..|by rewrite Htaken]).
  - simpl. rewrite (IH _ slot row_positions first second more); try done.
Qed.

(** X14: [column_scr] cannot wire rows of key names, which is what
    [parse_json] stores in [self.rows].  As soon as [max_col] is at least 1
    and two rows are not empty, the first traversal index takes the last
    name of each of them, and unless the first of these names is the empty
    string, linking the second to it reads [column_pin_scr] of a string:
    the method raises [AttributeError] and stores no script. *)
Theorem column_scr_names_raise (rows : list (list string)) columns version
    first second more :
  taken 1 rows = first :: second :: more →
  first ≠ "" →
  column_scr_of rows (S columns) version = Raise (AttributeError "column_pin_scr").
Proof.
  intros Htaken Hne. unfold column_scr_of, traverse.
  change (seq 1 (S columns)) with (1%nat :: seq 2 columns) at 2.
  cbn [for_each].
  match goal with |- context [column_pass ?acc 1] =>
    assert (column_pass acc 1 = Raise (AttributeError "column_pin_scr")) as ->; [|done]
  end.
  unfold column_pass.
  apply (column_rows_names_fresh 1 rows _ columns (seq 1 columns) first second more);
    try done.
  cbn [cs_row_positions]. by rewrite pop_side_seq.
Qed.

End NamesHaveNoPin.

Lemma column_scr_names_raise_witness :
  taken 1 [["Q"; "W"]; ["A"; "S"]] = ["W"; "S"] ∧
  "W" ≠ "" ∧
  column_scr_of (float := demo_float) (functions := demo_functions)
    [["Q"; "W"]; ["A"; "S"]] 2 "pro" = Raise (AttributeError "column_pin_scr").
Proof.
  assert (taken 1 [["Q"; "W"]; ["A"; "S"]] = ["W"; "S"]) as Htaken by reflexivity.
  assert ("W" ≠ "") as Hne by discriminate.
  split; [exact Htaken|]. split; [exact Hne|].
  exact (column_scr_names_raise (float := demo_float) (functions := demo_functions)
           [["Q"; "W"]; ["A"; "S"]] 1 "pro" "W" "S" [] Htaken Hne).
Defined.
